(** * EnergyGrid Data Aggregator: a shallow embedding of the client

    The client of the repository (client/src) is embedded module by module:
    - [Js]: the fragment of JavaScript values and built-ins the client uses;
    - [DeviceManager]: business/deviceManager.js;
    - [Signature]: api/signature.js, with MD5 written out;
    - [Client]: api/client.js;
    - [RateLimiter]: api/rateLimiter.js;
    - [Index]: index.js, the driver loop.
    The theorems about them follow the definitions. *)

From Stdlib Require Import ZArith List String Ascii Bool Lia Floats Sorted.
From Stdlib Require Import DecimalString.
From Stdlib Require DecimalNat.
From Equations Require Import Equations.
From Equations.Prop Require Import Logic.
Import ListNotations.

Set Warnings "-register-all".

Local Open Scope string_scope.
Local Open Scope list_scope.
Local Open Scope Z_scope.

(* ===================================================================== *)
(** ** JavaScript values and built-ins *)
(* ===================================================================== *)

Module Js.

(** A JavaScript string is kept as the byte sequence of its UTF-8 encoding. *)

(** [String(i)] for a non-negative integer [i]. *)
Definition String_of_nat (i : nat) : string :=
  NilEmpty.string_of_uint (Nat.to_uint i).

(** The decimal representation of an integer, with its sign. *)
Definition decimal (z : Z) : string :=
  NilZero.string_of_int (Z.to_int z).

Fixpoint repeat_char (c : ascii) (n : nat) : string :=
  match n with
  | O => EmptyString
  | S n' => String c (repeat_char c n')
  end.

(** [s.padStart(targetLength, c)] for a one-character filler [c]. *)
Definition padStart (s : string) (targetLength : nat) (c : ascii) : string :=
  (repeat_char c (targetLength - String.length s) ++ s)%string.

(** [s.startsWith(searchString)] *)
Fixpoint startsWith (s searchString : string) {struct searchString} : bool :=
  match searchString with
  | EmptyString => true
  | String a rest =>
      match s with
      | EmptyString => false
      | String b s' => Ascii.eqb a b && startsWith s' rest
      end
  end.

(** [array.slice(start, end)] for integers [0 <= start]: the elements at the
    indices [start .. min(end, length) - 1]. *)
Definition slice {A : Type} (array : list A) (start end_ : nat) : list A :=
  firstn (end_ - start) (skipn start array).

(** *** Values *)

(** What [JSON.parse] returns. An object is the list of its own properties. *)
Inductive value : Type :=
| JNull
| JBool (b : bool)
| JNum (x : float)
| JStr (s : string)
| JArr (elems : list value)
| JObj (fields : list (string * value)).

(** The values the client throws or rejects with: an [Error] object (also a
    [TypeError] or a [SyntaxError]), which has a [message] and neither [code]
    nor [retryable]; or an object literal [{ code, message, retryable }],
    whose [code] is a status code or the string ['NETWORK_ERROR']. *)
Inductive code : Type :=
| StatusCode (n : Z)
| NETWORK_ERROR.

Inductive thrown : Type :=
| ErrorObject (message : string)
| Rejection (c : code) (message : string) (retryable : bool).

(** A computation that returns or throws. *)
Definition completion (A : Type) : Type := (thrown + A)%type.

(** [ToBoolean]. *)
Definition truthy (v : value) : bool :=
  match v with
  | JNull => false
  | JBool b => b
  | JNum x => negb (PrimFloat.is_nan x || PrimFloat.is_zero x)
  | JStr s => negb (String.eqb s EmptyString)
  | JArr _ => true
  | JObj _ => true
  end.

Fixpoint lookup (name : string) (fields : list (string * value)) : option value :=
  match fields with
  | [] => None
  | (k, v) :: rest => if String.eqb k name then Some v else lookup name rest
  end.

(** [v.name] for a property name that no prototype defines ([data], [status],
    [power]): a [TypeError] on [null], [None] for [undefined]. *)
Definition Get (v : value) (name : string) : completion (option value) :=
  match v with
  | JNull =>
      inl (ErrorObject
             ("Cannot read properties of null (reading '" ++ name ++ "')")%string)
  | JObj fields => inr (lookup name fields)
  | _ => inr None
  end.

(** [array.flat()], depth 1. *)
Definition flat (array : list value) : list value :=
  flat_map (fun v => match v with JArr elems => elems | _ => [v] end) array.

(** [array.filter(p)] for a callback that can throw. *)
Fixpoint filter (p : value -> completion bool) (array : list value)
  : completion (list value) :=
  match array with
  | [] => inr []
  | v :: rest =>
      match p v with
      | inl e => inl e
      | inr keep =>
          match filter p rest with
          | inl e => inl e
          | inr kept => inr (if keep then v :: kept else kept)
          end
      end
  end.

(** [array.reduce(f, init)] for a callback that can throw. *)
Fixpoint reduce {B : Type} (f : B -> value -> completion B) (array : list value)
  (init : B) : completion B :=
  match array with
  | [] => inr init
  | v :: rest =>
      match f init v with
      | inl e => inl e
      | inr acc => reduce f rest acc
      end
  end.

(** *** Numbers *)

(** The number of an array length. *)
Definition Number_of_nat (n : nat) : float :=
  PrimFloat.of_uint63 (Uint63.of_Z (Z.of_nat n)).

(** The double nearest to [num / den] (ties to even), for [0 <= num] and
    [0 < den], with the sign [neg]. *)
Definition Number_of_ratio (neg : bool) (num den : Z) : float :=
  if num =? 0 then (if neg then PrimFloat.neg_zero else PrimFloat.zero)
  else
    let scaled (e : Z) : Z * Z :=
      if e <? 0 then (num * 2 ^ (- e), den) else (num, den * 2 ^ e) in
    let e1 := Z.log2 num - Z.log2 den - 52 in
    let e2 := if (let '(n, d) := scaled e1 in n / d) <? 2 ^ 52
              then e1 - 1 else e1 in
    let e := Z.max e2 (-1074) in
    let '(n, d) := scaled e in
    let q := n / d in
    let r := n mod d in
    let q' := if 2 * r <? d then q
              else if d <? 2 * r then q + 1
              else if Z.even q then q else q + 1 in
    if q' =? 0 then (if neg then PrimFloat.neg_zero else PrimFloat.zero)
    else SF2Prim (S754_finite neg (Z.to_pos q') e).

Definition is_digit (c : ascii) : bool :=
  let n := N_of_ascii c in ((48 <=? n) && (n <=? 57))%N.

(** The longest prefix of decimal digits, and the rest. *)
Fixpoint span_digits (s : string) : string * string :=
  match s with
  | EmptyString => (EmptyString, EmptyString)
  | String c s' =>
      if is_digit c
      then let '(ds, rest) := span_digits s' in (String c ds, rest)
      else (EmptyString, s)
  end.

(** The value of a string of decimal digits, read after [acc]. *)
Fixpoint digits_value (acc : Z) (ds : string) : Z :=
  match ds with
  | EmptyString => acc
  | String c ds' => digits_value (10 * acc + (Z.of_N (N_of_ascii c) - 48)) ds'
  end.

(** [TrimString(s, start)]: white space and line terminators, in UTF-8. *)
Fixpoint trimStart (fuel : nat) (s : string) : string :=
  match fuel with
  | O => s
  | S fuel' =>
      match List.map (fun c => Z.of_N (N_of_ascii c)) (list_ascii_of_string s) with
      | b0 :: rest0 =>
          if (9 <=? b0) && (b0 <=? 13) || (b0 =? 32)
          then trimStart fuel' (String.substring 1 (String.length s - 1) s)
          else
            match rest0 with
            | b1 :: rest1 =>
                if (b0 =? 194) && (b1 =? 160)
                then trimStart fuel' (String.substring 2 (String.length s - 2) s)
                else
                  match rest1 with
                  | b2 :: _ =>
                      if (b0 =? 225) && (b1 =? 154) && (b2 =? 128)
                         || (b0 =? 226) && (b1 =? 128)
                            && ((128 <=? b2) && (b2 <=? 138) || (b2 =? 168)
                                || (b2 =? 169) || (b2 =? 175))
                         || (b0 =? 226) && (b1 =? 129) && (b2 =? 159)
                         || (b0 =? 227) && (b1 =? 128) && (b2 =? 128)
                         || (b0 =? 239) && (b1 =? 187) && (b2 =? 191)
                      then trimStart fuel'
                             (String.substring 3 (String.length s - 3) s)
                      else s
                  | [] => s
                  end
            | [] => s
            end
      | [] => s
      end
  end.

(** An [ExponentPart] at the head of [s], when there is a complete one. *)
Definition exponent_part (s : string) : Z :=
  match s with
  | String c s' =>
      if Ascii.eqb c "e" || Ascii.eqb c "E" then
        let '(neg, s'') :=
          match s' with
          | String sg t =>
              if Ascii.eqb sg "-" then (true, t)
              else if Ascii.eqb sg "+" then (false, t) else (false, s')
          | EmptyString => (false, s')
          end in
        let '(ds, _) := span_digits s'' in
        if String.eqb ds EmptyString then 0
        else if neg then - digits_value 0 ds else digits_value 0 ds
      else 0
  | EmptyString => 0
  end.

(** [parseFloat] of a string: the longest prefix of the trimmed string that
    is a [StrDecimalLiteral], [NaN] when there is none. *)
Definition parseFloat_string (s : string) : float :=
  let t := trimStart (String.length s) s in
  let '(neg, u) :=
    match t with
    | String sg t' =>
        if Ascii.eqb sg "-" then (true, t')
        else if Ascii.eqb sg "+" then (false, t') else (false, t)
    | EmptyString => (false, t)
    end in
  if startsWith u "Infinity"
  then (if neg then PrimFloat.neg_infinity else PrimFloat.infinity)
  else
    let '(int_digits, after_int) := span_digits u in
    let '(frac_digits, after_frac) :=
      match after_int with
      | String dot v =>
          if Ascii.eqb dot "." then span_digits v else (EmptyString, after_int)
      | EmptyString => (EmptyString, after_int)
      end in
    if String.eqb int_digits EmptyString && String.eqb frac_digits EmptyString
    then PrimFloat.nan
    else
      let m := digits_value (digits_value 0 int_digits) frac_digits in
      let e := exponent_part after_frac - Z.of_nat (String.length frac_digits) in
      if e <? 0 then Number_of_ratio neg m (10 ^ (- e))
      else Number_of_ratio neg (m * 10 ^ e) 1.

(** *** Numbers as strings *)

(** The double nearest to the integer [z] (ties to even); an integer beyond
    the range of the doubles gives an infinity. *)
Definition Number_of_Z (z : Z) : float :=
  if 2 ^ 1024 <=? Z.abs z
  then (if z <? 0 then PrimFloat.neg_infinity else PrimFloat.infinity)
  else Number_of_ratio (z <? 0) (Z.abs z) 1.

(** The least [t], from [t] on, with [den <= num * 10^t]. *)
Fixpoint first_scale (fuel : nat) (num den t : Z) : Z :=
  match fuel with
  | O => t
  | S fuel' =>
      if den <=? num * 10 ^ t then t else first_scale fuel' num den (t + 1)
  end.

(** The integer [n] with [10^(n-1) <= num / den < 10^n], for a positive
    double [num / den]. *)
Definition decimal_exponent (num den : Z) : Z :=
  if den <=? num then Z.of_nat (String.length (decimal (num / den)))
  else 1 - first_scale 400 num den 1.

(** [num / den / 10^p] as a fraction. *)
Definition scaled (num den p : Z) : Z * Z :=
  if p <? 0 then (num * 10 ^ (- p), den) else (num, den * 10 ^ p).

(** The candidates with [k] digits for a positive double [x = num / den] of
    decimal exponent [n]: the integers [s] just below and just above
    [x / 10^(n-k)] for which [s * 10^(n-k)] is a decimal of [x], that is,
    rounds to [x]; the one nearer to [x] is taken. The candidate [10^k]
    stands for the digit 1 with the exponent [n + 1]. *)
Definition digits_candidate (x : float) (num den n k : Z) : option (Z * Z) :=
  let p := n - k in
  let '(a, b) := scaled num den p in
  let s_lo := a / b in
  let s_hi := s_lo + 1 in
  let back (s : Z) : bool :=
    PrimFloat.eqb x (if p <? 0 then Number_of_ratio false s (10 ^ (- p))
                     else Number_of_ratio false (s * 10 ^ p) 1) in
  let lo := (10 ^ (k - 1) <=? s_lo) && back s_lo in
  let hi := back s_hi && ((s_hi <? 10 ^ k) || (k =? 1)) in
  let above := if s_hi <? 10 ^ k then (s_hi, n) else (1, n + 1) in
  if lo && hi then Some (if 2 * (a mod b) <=? b then (s_lo, n) else above)
  else if lo then Some (s_lo, n)
  else if hi then Some above
  else None.

(** The digits [s] and the exponent [n] of [Number::toString]: the least
    number [k] of digits for which there is a candidate, from [k] on. With
    seventeen digits, which tell any two doubles apart, the nearest integer
    is one. *)
Fixpoint shortest_digits (fuel : nat) (x : float) (num den n k : Z) : Z * Z :=
  match fuel with
  | O => let '(a, b) := scaled num den (n - k) in ((2 * a + b) / (2 * b), n)
  | S fuel' =>
      match digits_candidate x num den n k with
      | Some sn => sn
      | None => shortest_digits fuel' x num den n (k + 1)
      end
  end.

(** [Number::toString(x)] in radix 10. *)
Definition Number_toString (x : float) : string :=
  match Prim2SF x with
  | S754_nan => "NaN"
  | S754_infinity false => "Infinity"
  | S754_infinity true => "-Infinity"
  | S754_zero _ => "0"
  | S754_finite neg m e =>
      let '(num, den) :=
        if e <? 0 then (Zpos m, 2 ^ (- e)) else (Zpos m * 2 ^ e, 1) in
      let '(s, n) :=
        shortest_digits 16 (PrimFloat.abs x) num den (decimal_exponent num den) 1 in
      let digits := decimal s in
      let k := Z.of_nat (String.length digits) in
      let body :=
        if (-5 <=? n) && (n <=? 21) then
          if k <=? n then (digits ++ repeat_char "0" (Z.to_nat (n - k)))%string
          else if 0 <? n then
            (String.substring 0 (Z.to_nat n) digits ++ "."
             ++ String.substring (Z.to_nat n) (Z.to_nat (k - n)) digits)%string
          else ("0." ++ repeat_char "0" (Z.to_nat (- n)) ++ digits)%string
        else
          let exponent :=
            ((if (0 <=? n - 1)%Z then "e+" else "e-") ++ decimal (Z.abs (n - 1)))%string in
          if k =? 1 then (digits ++ exponent)%string
          else (String.substring 0 1 digits ++ "."
                ++ String.substring 1 (Z.to_nat (k - 1)) digits ++ exponent)%string in
      if neg then ("-" ++ body)%string else body
  end.

(** [String(z)], or [z.toString()], for the number that holds the integer
    [z]: up to 2^53 these are the decimal digits of [z]. *)
Definition String_of_Z (z : Z) : string := Number_toString (Number_of_Z z).

(** [array.join(",")] with the conversion [print] of an element to a string:
    the strings of the elements, in order, separated by commas. *)
Fixpoint join (print : value -> completion string) (elems : list value)
  : completion string :=
  match elems with
  | [] => inr EmptyString
  | elem :: rest =>
      match print elem with
      | inl e => inl e
      | inr s =>
          match rest with
          | [] => inr s
          | _ :: _ =>
              match join print rest with
              | inl e => inl e
              | inr t => inr (s ++ "," ++ t)%string
              end
          end
      end
  end.

(** [ToString(v)] of a value that [JSON.parse] returned. An array prints its
    elements separated by commas, [null] printing as nothing; an object
    prints as ["[object Object]"] unless it has a property [toString] of its
    own, which is not callable and hides the method of the prototype: then
    the conversion throws a [TypeError]. *)
Fixpoint ToString (v : value) : completion string :=
  match v with
  | JNull => inr "null"
  | JBool b => inr (if b then "true" else "false")
  | JNum x => inr (Number_toString x)
  | JStr s => inr s
  | JArr elems =>
      join (fun elem => match elem with
                        | JNull => inr EmptyString
                        | _ => ToString elem
                        end) elems
  | JObj fields =>
      match lookup "toString" fields with
      | Some _ => inl (ErrorObject "Cannot convert object to primitive value")
      | None => inr "[object Object]"
      end
  end.

(** [parseFloat(v)], which parses [ToString(v)]; [None] is [undefined]. *)
Definition parseFloat (v : option value) : completion float :=
  match v with
  | Some v' =>
      match ToString v' with
      | inl e => inl e
      | inr s => inr (parseFloat_string s)
      end
  | None => inr (parseFloat_string "undefined")
  end.

(** [isNaN] of a number. *)
Definition isNaN (x : float) : bool := PrimFloat.is_nan x.

Section ToFixed.

(** [Number::toString] for the finite numbers from 1e21 on, which [toFixed]
    prints as they are: a parameter, of which [Number_toString] is the
    instance of the language. *)
Variable Number_toString_exponential : float -> string.

(** [x.toFixed(f)] (for [0 <= f <= 100]): the integer [n] with [n / 10^f]
    nearest to [x], the larger of two, printed with [f] decimals. *)
Definition toFixed (x : float) (f : nat) : string :=
  match Prim2SF x with
  | S754_nan => "NaN"
  | S754_infinity false => "Infinity"
  | S754_infinity true => "-Infinity"
  | S754_zero _ =>
      if (f =? 0)%nat then "0" else ("0." ++ repeat_char "0" f)%string
  | S754_finite neg m e =>
      let '(num, den) :=
        if e <? 0 then (Zpos m, 2 ^ (- e)) else (Zpos m * 2 ^ e, 1) in
      let body :=
        if 10 ^ 21 * den <=? num then Number_toString_exponential (PrimFloat.abs x)
        else
          let n := (2 * num * 10 ^ Z.of_nat f + den) / (2 * den) in
          let digits := padStart (decimal n) (S f) "0" in
          let k := String.length digits in
          if (f =? 0)%nat then digits
          else (String.substring 0 (k - f) digits ++ "."
                ++ String.substring (k - f) f digits)%string in
      if neg then ("-" ++ body)%string else body
  end.

End ToFixed.

(** *** Timers *)

(** The largest delay of a timer of Node.js, in milliseconds. *)
Definition TIMEOUT_MAX : Z := 2147483647.

(** The delay that [setTimeout(callback, ms)] gives its timer: [ms] from 1
    to [TIMEOUT_MAX], and 1 for any other [ms]. *)
Definition setTimeout_delay (ms : Z) : Z :=
  if (1 <=? ms) && (ms <=? TIMEOUT_MAX) then ms else 1.

End Js.

(* ===================================================================== *)
(** ** business/deviceManager.js: serial numbers and batches *)
(* ===================================================================== *)

Module DeviceManager.

Definition BATCH_SIZE : nat := 10.

(** The [for] loop of [generateSerialNumbers], counting [i] upwards; [todo]
    is [count - i]. *)
Fixpoint generateSerialNumbers_loop (todo i : nat) (serialNumbers : list string)
  : list string :=
  match todo with
  | O => serialNumbers
  | S todo' =>
      let paddedNumber := Js.padStart (Js.String_of_nat i) 3 "0"%char in
      generateSerialNumbers_loop todo' (S i)
        (serialNumbers ++ [("SN-" ++ paddedNumber)%string])
  end.

Definition generateSerialNumbers (count : nat) : list string :=
  generateSerialNumbers_loop count 0 [].

(** The [for] loop of [createBatches]. The JavaScript loop does not terminate
    when [batchSize] is 0 and the array is not empty; [fuel] bounds the number
    of iterations and [None] stands for running out of it. *)
Fixpoint createBatches_loop {A : Type} (fuel : nat) (array : list A)
  (batchSize i : nat) (batches : list (list A)) : option (list (list A)) :=
  match fuel with
  | O => None
  | S fuel' =>
      if (i <? List.length array)%nat
      then createBatches_loop fuel' array batchSize (i + batchSize)
             (batches ++ [Js.slice array i (i + batchSize)])
      else Some batches
  end.

Definition createBatches {A : Type} (array : list A) (batchSize : nat)
  : option (list (list A)) :=
  createBatches_loop (S (List.length array)) array batchSize 0 [].

(** Batches of a list: none empty, every one at most [b] long, every one but
    the last exactly [b] long. *)
Definition well_sized {A : Type} (b : nat) (batches : list (list A)) : Prop :=
  Forall (fun batch => (1 <= List.length batch <= b)%nat) batches /\
  forall k, (S k < List.length batches)%nat ->
            List.length (nth k batches []) = b.

(** The report of [aggregateResults]. [generatedAt] is kept as the time value
    of [new Date()], in milliseconds, not as its ISO 8601 string. *)
Record summary_t : Type := {
  totalDevices : nat;
  onlineDevices : nat;
  offlineDevices : nat;
  onlinePercentage : string;
  totalPowerKW : string;
  averagePowerKW : string;
  generatedAt : Z
}.

Record report : Type := {
  summary : summary_t;
  devices : list Js.value
}.

(** [d => d.status === s] *)
Definition status_is (s : string) (d : Js.value) : Js.completion bool :=
  match Js.Get d "status" with
  | inl e => inl e
  | inr (Some (Js.JStr s')) => inr (String.eqb s' s)
  | inr _ => inr false
  end.

(** The callback of [reduce]. *)
Definition add_power (sum : float) (device : Js.value) : Js.completion float :=
  match Js.Get device "power" with
  | inl e => inl e
  | inr p =>
      match Js.parseFloat p with
      | inl e => inl e
      | inr power => inr (sum + (if Js.isNaN power then 0 else power))%float
      end
  end.

Section AggregateResults.

Variable Number_toString_exponential : float -> string.

Let toFixed := Js.toFixed Number_toString_exponential.

(** [now] is what [new Date()] reads. *)
Definition aggregateResults (now : Z) (results : list Js.value)
  : Js.completion report :=
  let flatResults := Js.flat results in
  let totalDevices := List.length flatResults in
  match Js.filter (status_is "Online") flatResults with
  | inl e => inl e
  | inr online =>
      let onlineDevices := List.length online in
      match Js.filter (status_is "Offline") flatResults with
      | inl e => inl e
      | inr offline =>
          let offlineDevices := List.length offline in
          match Js.reduce add_power flatResults 0%float with
          | inl e => inl e
          | inr totalPower =>
              inr {|
                summary := {|
                  totalDevices := totalDevices;
                  onlineDevices := onlineDevices;
                  offlineDevices := offlineDevices;
                  onlinePercentage :=
                    (toFixed (Js.Number_of_nat onlineDevices
                              / Js.Number_of_nat totalDevices * 100)%float 2
                     ++ "%")%string;
                  totalPowerKW := (toFixed totalPower 2 ++ " kW")%string;
                  averagePowerKW :=
                    (toFixed (totalPower / Js.Number_of_nat totalDevices)%float 2
                     ++ " kW")%string;
                  generatedAt := now
                |};
                devices := flatResults
              |}
          end
      end
  end.

End AggregateResults.

(** A device record whose [status] is the string [s]. *)
Definition has_status (s : string) (d : Js.value) : bool :=
  match d with
  | Js.JObj fields =>
      match Js.lookup "status" fields with
      | Some (Js.JStr s') => String.eqb s' s
      | _ => false
      end
  | _ => false
  end.

(** The serial number that [generateSerialNumbers] builds for the index
    [i]. *)
Definition serialNumber (i : nat) : string :=
  ("SN-" ++ Js.padStart (Js.String_of_nat i) 3 "0"%char)%string.

(** The index that a serial number was built from: the digits after the
    three first characters, read as a decimal number. *)
Definition serial_index (sn : string) : option nat :=
  match sn with
  | String _ (String _ (String _ digits)) =>
      option_map Nat.of_uint (NilEmpty.uint_of_string digits)
  | _ => None
  end.

Definition is_null (d : Js.value) : bool :=
  match d with
  | Js.JNull => true
  | _ => false
  end.

(** The device [d] has the power [p]: [parseFloat(d.power)] is the number
    [p]. *)
Definition has_power (d : Js.value) (p : float) : Prop :=
  exists v, Js.Get d "power" = inr v /\ Js.parseFloat v = inr p /\
            Js.isNaN p = false.

(** A device whose [power] cannot be made a string, so that [parseFloat]
    throws on it: an object with a [toString] of its own, or an array that
    holds one. *)
Definition power_unreadable (d : Js.value) : bool :=
  match d with
  | Js.JObj fields =>
      match Js.lookup "power" fields with
      | Some v => match Js.ToString v with inl _ => true | inr _ => false end
      | None => false
      end
  | _ => false
  end.

(** What a device adds to the total: the number that its [power] starts
    with, and nothing when there is none. *)
Definition power_of (d : Js.value) : float :=
  match d with
  | Js.JObj fields =>
      match Js.parseFloat (Js.lookup "power" fields) with
      | inr power => if Js.isNaN power then 0%float else power
      | inl _ => 0%float
      end
  | _ => 0%float
  end.

End DeviceManager.

(* ===================================================================== *)
(** ** MD5 (RFC 1321), the digest behind [crypto.createHash('md5')] *)
(* ===================================================================== *)

Module Md5.

(** A 32-bit word is a [Z] in [0, 2^32); additions wrap around. *)
Definition w32 (z : Z) : Z := z mod 4294967296.

Definition not32 (x : Z) : Z := Z.lxor x 4294967295.

Definition rotl32 (x c : Z) : Z :=
  w32 (Z.lor (Z.shiftl x c) (Z.shiftr x (32 - c))).

(** Per-round shift amounts. *)
Definition S_table : list Z :=
  [7; 12; 17; 22; 7; 12; 17; 22; 7; 12; 17; 22; 7; 12; 17; 22;
   5; 9; 14; 20; 5; 9; 14; 20; 5; 9; 14; 20; 5; 9; 14; 20;
   4; 11; 16; 23; 4; 11; 16; 23; 4; 11; 16; 23; 4; 11; 16; 23;
   6; 10; 15; 21; 6; 10; 15; 21; 6; 10; 15; 21; 6; 10; 15; 21].

(** [K_table[i] = floor(2^32 * abs(sin(i + 1)))]. *)
Definition K_table : list Z :=
  [
     3614090360; 3905402710; 606105819; 3250441966;
     4118548399; 1200080426; 2821735955; 4249261313;
     1770035416; 2336552879; 4294925233; 2304563134;
     1804603682; 4254626195; 2792965006; 1236535329;
     4129170786; 3225465664; 643717713; 3921069994;
     3593408605; 38016083; 3634488961; 3889429448;
     568446438; 3275163606; 4107603335; 1163531501;
     2850285829; 4243563512; 1735328473; 2368359562;
     4294588738; 2272392833; 1839030562; 4259657740;
     2763975236; 1272893353; 4139469664; 3200236656;
     681279174; 3936430074; 3572445317; 76029189;
     3654602809; 3873151461; 530742520; 3299628645;
     4096336452; 1126891415; 2878612391; 4237533241;
     1700485571; 2399980690; 4293915773; 2240044497;
     1873313359; 4264355552; 2734768916; 1309151649;
     4149444226; 3174756917; 718787259; 3951481745
  ].

Definition state : Type := (Z * Z * Z * Z)%type.

Definition init : state := (1732584193, 4023233417, 2562383102, 271733878).

(** One of the 64 operations on the block [M] of 16 words. *)
Definition step (M : list Z) (st : state) (i : nat) : state :=
  let '(a, b, c, d) := st in
  let iz := Z.of_nat i in
  let '(f, g) :=
    if iz <? 16 then (Z.lor (Z.land b c) (Z.land (not32 b) d), iz)
    else if iz <? 32 then
      (Z.lor (Z.land d b) (Z.land (not32 d) c), (5 * iz + 1) mod 16)
    else if iz <? 48 then (Z.lxor (Z.lxor b c) d, (3 * iz + 5) mod 16)
    else (Z.lxor c (Z.lor b (not32 d)), (7 * iz) mod 16) in
  let f' := w32 (f + a + nth i K_table 0 + nth (Z.to_nat g) M 0) in
  (d, w32 (b + rotl32 f' (nth i S_table 0)), b, c).

(** Little-endian word of four bytes. *)
Definition word_of_bytes (bs : list Z) : Z :=
  nth 0 bs 0 + 256 * nth 1 bs 0 + 65536 * nth 2 bs 0 + 16777216 * nth 3 bs 0.

Fixpoint words_of_block (n : nat) (block : list Z) : list Z :=
  match n with
  | O => []
  | S n' => word_of_bytes (firstn 4 block) :: words_of_block n' (skipn 4 block)
  end.

Definition compress (st : state) (block : list Z) : state :=
  let M := words_of_block 16 block in
  let '(a0, b0, c0, d0) := st in
  let '(a, b, c, d) := fold_left (step M) (seq 0 64) st in
  (w32 (a0 + a), w32 (b0 + b), w32 (c0 + c), w32 (d0 + d)).

(** The [n] low bytes of [z], least significant first. *)
Fixpoint le_bytes (n : nat) (z : Z) : list Z :=
  match n with
  | O => []
  | S n' => z mod 256 :: le_bytes n' (z / 256)
  end.

(** Padding: a 1 bit, zeros up to 56 modulo 64 bytes, the bit length on 64
    bits. *)
Definition pad (msg : list Z) : list Z :=
  let len := Z.of_nat (List.length msg) in
  msg ++ [128] ++ repeat 0 (Z.to_nat ((55 - len) mod 64))
      ++ le_bytes 8 ((8 * len) mod 18446744073709551616).

Fixpoint blocks (n : nat) (bytes : list Z) : list (list Z) :=
  match n with
  | O => []
  | S n' => firstn 64 bytes :: blocks n' (skipn 64 bytes)
  end.

(** The 16 bytes of the digest. *)
Definition digest (msg : list Z) : list Z :=
  let padded := pad msg in
  let '(a, b, c, d) :=
    fold_left compress (blocks (List.length padded / 64) padded) init in
  le_bytes 4 a ++ le_bytes 4 b ++ le_bytes 4 c ++ le_bytes 4 d.

End Md5.

(* ===================================================================== *)
(** ** api/signature.js *)
(* ===================================================================== *)

Module Signature.

Definition TOKEN : string := "interview_token_123".

(** [hash.update(payload)]: the bytes of the UTF-8 encoding of the string. *)
Definition update (payload : string) : list Z :=
  map (fun c => Z.of_N (N_of_ascii c)) (list_ascii_of_string payload).

Definition hex_digit (n : Z) : ascii :=
  if n <? 10 then ascii_of_N (Z.to_N (48 + n)) else ascii_of_N (Z.to_N (87 + n)).

(** [hash.digest('hex')]: two lowercase hexadecimal digits per byte. *)
Fixpoint digest_hex (bytes : list Z) : string :=
  match bytes with
  | [] => EmptyString
  | b :: rest =>
      String (hex_digit ((b / 16) mod 16))
        (String (hex_digit (b mod 16)) (digest_hex rest))
  end.

(** [crypto.createHash('md5').update(payload).digest('hex')] *)
Definition md5_hex (payload : string) : string :=
  digest_hex (Md5.digest (update payload)).

(** The [timestamp] argument: the string that [queryDevices] passes, or the
    number that the documentation announces. *)
Inductive timestamp : Type :=
| TsString (s : string)
| TsNumber (ms : float).

(** What [string + timestamp] appends. *)
Definition ToString (t : timestamp) : string :=
  match t with
  | TsString s => s
  | TsNumber ms => Js.Number_toString ms
  end.

Definition generateSignature (url : string) (t : timestamp) : string :=
  let payload := (url ++ TOKEN ++ ToString t)%string in
  md5_hex payload.

(** A lowercase hexadecimal digit. *)
Definition is_lower_hex (c : ascii) : bool :=
  let n := N_of_ascii c in
  ((48 <=? n) && (n <=? 57) || (97 <=? n) && (n <=? 102))%N.

Fixpoint all_chars (p : ascii -> bool) (s : string) : bool :=
  match s with
  | EmptyString => true
  | String c s' => p c && all_chars p s'
  end.

End Signature.

(* ===================================================================== *)
(** ** api/rateLimiter.js *)
(* ===================================================================== *)

Module RateLimiter.

Section WithRequests.

(** What the queue holds: a request function with the [resolve] and [reject]
    of its promise. *)
Variable R : Type.

Record t : Type := {
  minIntervalMs : Z;
  lastRequestTime : Z;
  queue : list R;
  isProcessing : bool
}.

(** [new RateLimiter(minIntervalMs)] *)
Definition new (minIntervalMs : Z) : t := {|
  minIntervalMs := minIntervalMs;
  lastRequestTime := 0;
  queue := [];
  isProcessing := false
|}.

(** Where the one activation of [processQueue] that got past the guard is
    suspended: nowhere, at [await this.sleep(waitTime)] with the time its
    timer is due (the time of the call and the delay that [setTimeout] gives
    the timer), or at [await requestFn()]. *)
Inductive activation : Type :=
| Idle
| Sleeping (r : R) (due : Z)
| Requesting (r : R).

(** The limiter, the activation of [processQueue], and two histories: the
    values that line 49 gave to [lastRequestTime], oldest first, and the
    requests whose promise was settled. *)
Record state : Type := {
  fields : t;
  running : activation;
  admissions : list Z;
  settled : list R
}.

Definition initial (minIntervalMs : Z) : state := {|
  fields := new minIntervalMs;
  running := Idle;
  admissions := [];
  settled := []
|}.

Definition with_queue (q : list R) (l : t) : t := {|
  minIntervalMs := minIntervalMs l;
  lastRequestTime := lastRequestTime l;
  queue := q;
  isProcessing := isProcessing l
|}.

Definition with_isProcessing (b : bool) (l : t) : t := {|
  minIntervalMs := minIntervalMs l;
  lastRequestTime := lastRequestTime l;
  queue := queue l;
  isProcessing := b
|}.

Definition with_lastRequestTime (time : Z) (l : t) : t := {|
  minIntervalMs := minIntervalMs l;
  lastRequestTime := time;
  queue := queue l;
  isProcessing := isProcessing l
|}.

(** [sleep(ms)]: how long after the call the timer is due. *)
Definition sleep (ms : Z) : Z := Js.setTimeout_delay ms.

(** Lines 40 to 42, [now] being what [Date.now()] reads. *)
Definition waitTime (l : t) (now : Z) : Z :=
  let timeSinceLastRequest := now - lastRequestTime l in
  Z.max 0 (minIntervalMs l - timeSinceLastRequest).

(** Line 49, [now'] being what [Date.now()] reads there, and the call of
    [requestFn] up to its [await]. *)
Definition grant (r : R) (now' : Z) (s : state) : state := {|
  fields := with_lastRequestTime now' (fields s);
  running := Requesting r;
  admissions := admissions s ++ [now'];
  settled := settled s
|}.

(** The test of the [while] loop and an iteration up to its first [await]:
    lines 36 to 50. [now] is read at line 40 and [now'] at line 49. *)
Definition iterate (now now' : Z) (s : state) : state :=
  match queue (fields s) with
  | [] => {|
      fields := with_isProcessing false (fields s);
      running := Idle;
      admissions := admissions s;
      settled := settled s
    |}
  | r :: q =>
      let l := with_queue q (fields s) in
      let s' := {| fields := l; running := running s;
                   admissions := admissions s; settled := settled s |} in
      let waitTime := waitTime l now in
      if 0 <? waitTime
      then {| fields := l; running := Sleeping r (now + sleep waitTime);
              admissions := admissions s; settled := settled s |}
      else grant r now' s'
  end.

(** [processQueue()], up to its first [await]. *)
Definition processQueue (now now' : Z) (s : state) : state :=
  if isProcessing (fields s) || (List.length (queue (fields s)) =? 0)%nat
  then s
  else
    iterate now now'
      {| fields := with_isProcessing true (fields s); running := running s;
         admissions := admissions s; settled := settled s |}.

(** [enqueue(requestFn)], up to the first [await] of [processQueue]. *)
Definition enqueue (r : R) (now now' : Z) (s : state) : state :=
  processQueue now now'
    {| fields := with_queue (queue (fields s) ++ [r]) (fields s);
       running := running s; admissions := admissions s;
       settled := settled s |}.

(** The timer of [this.sleep(waitTime)] fires: line 49 and on. *)
Definition timer_fired (now' : Z) (s : state) : state :=
  match running s with
  | Sleeping r _ => grant r now' s
  | _ => s
  end.

(** The promise of [requestFn()] settles: lines 51 to 57. *)
Definition request_settled (now now' : Z) (s : state) : state :=
  match running s with
  | Requesting r =>
      iterate now now'
        {| fields := fields s; running := running s;
           admissions := admissions s; settled := settled s ++ [r] |}
  | _ => s
  end.

(** One turn of the event loop, with the clock before and after it. Time
    does not go back, and a timer does not fire before it is due. *)
Inductive step : Z * state -> Z * state -> Prop :=
| step_enqueue (clock : Z) (s : state) (r : R) (now now' : Z) :
    clock <= now -> now <= now' ->
    step (clock, s) (now', enqueue r now now' s)
| step_timer (clock : Z) (s : state) (r : R) (due now' : Z) :
    running s = Sleeping r due ->
    clock <= now' -> due <= now' ->
    step (clock, s) (now', timer_fired now' s)
| step_settled (clock : Z) (s : state) (r : R) (now now' : Z) :
    running s = Requesting r ->
    clock <= now -> now <= now' ->
    step (clock, s) (now', request_settled now now' s).

(** The states that a limiter created at the time [clock0] can reach. *)
Inductive reachable (minIntervalMs clock0 : Z) : Z * state -> Prop :=
| reachable_initial : reachable minIntervalMs clock0 (clock0, initial minIntervalMs)
| reachable_step (c c' : Z * state) :
    reachable minIntervalMs clock0 c -> step c c' ->
    reachable minIntervalMs clock0 c'.

(** Successive times at least [interval] apart. *)
Fixpoint spaced (interval : Z) (times : list Z) : Prop :=
  match times with
  | [] => True
  | t1 :: rest =>
      match rest with
      | [] => True
      | t2 :: _ => t1 + interval <= t2
      end /\ spaced interval rest
  end.

(** What every reachable state of a limiter with an interval in the range of
    the timers satisfies: the interval is the configured one, the admissions
    are spaced, [lastRequestTime] is the latest of them and is not ahead of
    the clock, the guard [isProcessing] is set while an activation is
    suspended, a sleeping activation is due no earlier than an interval
    after the latest admission, the clock has not gone back, and, when the
    limiter was created an interval or more after the epoch, nothing has
    happened as long as no admission was granted. *)
Record invariant (minInterval clock0 : Z) (c : Z * state) : Prop := {
  inv_interval : minIntervalMs (fields (snd c)) = minInterval;
  inv_spaced : spaced minInterval (admissions (snd c));
  inv_last : lastRequestTime (fields (snd c)) = last (admissions (snd c)) 0;
  inv_past : admissions (snd c) <> [] -> last (admissions (snd c)) 0 <= fst c;
  inv_guard : running (snd c) <> Idle -> isProcessing (fields (snd c)) = true;
  inv_due : forall r due, running (snd c) = Sleeping r due ->
                          admissions (snd c) <> [] ->
                          last (admissions (snd c)) 0 + minInterval <= due;
  inv_clock : clock0 <= fst c;
  inv_first : minInterval <= clock0 -> admissions (snd c) = [] ->
              snd c = initial minInterval
}.

(** The request that [processQueue] has taken off the queue and not settled
    yet, and that request once [requestFn] was called for it. *)
Definition in_flight (s : state) : list R :=
  match running s with
  | Idle => []
  | Sleeping r _ => [r]
  | Requesting r => [r]
  end.

Definition being_requested (s : state) : list R :=
  match running s with
  | Requesting r => [r]
  | _ => []
  end.

(** The states that a limiter created at the time [clock0] can reach, with
    the requests that were passed to [enqueue] on the way, oldest first. *)
Inductive reachable_after (minIntervalMs clock0 : Z) : list R -> Z * state -> Prop :=
| after_initial :
    reachable_after minIntervalMs clock0 [] (clock0, initial minIntervalMs)
| after_enqueue (enqueued : list R) (clock : Z) (s : state) (r : R) (now now' : Z) :
    reachable_after minIntervalMs clock0 enqueued (clock, s) ->
    clock <= now -> now <= now' ->
    reachable_after minIntervalMs clock0 (enqueued ++ [r])
      (now', enqueue r now now' s)
| after_timer (enqueued : list R) (clock : Z) (s : state) (r : R) (due now' : Z) :
    reachable_after minIntervalMs clock0 enqueued (clock, s) ->
    running s = Sleeping r due ->
    clock <= now' -> due <= now' ->
    reachable_after minIntervalMs clock0 enqueued (now', timer_fired now' s)
| after_settled (enqueued : list R) (clock : Z) (s : state) (r : R) (now now' : Z) :
    reachable_after minIntervalMs clock0 enqueued (clock, s) ->
    running s = Requesting r ->
    clock <= now -> now <= now' ->
    reachable_after minIntervalMs clock0 enqueued
      (now', request_settled now now' s).

(** What the queue discipline keeps, in every reachable state: the requests
    enqueued so far are the settled ones, the one in flight and the queued
    ones, in this order; an idle limiter has an empty queue and its guard
    down, a busy one has its guard up; the admissions are as many as the
    requests settled or being requested; [lastRequestTime] is the latest of
    them; a sleep that began at the time [now] is due after the delay that
    the timer gets for what was left of the interval; [lastRequestTime] is
    not ahead of the clock; and with an interval of 0 or less, after the
    epoch, there is no sleep. *)
Record order_invariant (clock0 : Z) (enqueued : list R) (c : Z * state)
  : Prop := {
  ord_content : enqueued
                = settled (snd c) ++ in_flight (snd c) ++ queue (fields (snd c));
  ord_idle : running (snd c) = Idle ->
             queue (fields (snd c)) = [] /\ isProcessing (fields (snd c)) = false;
  ord_busy : running (snd c) <> Idle -> isProcessing (fields (snd c)) = true;
  ord_count : List.length (admissions (snd c))
              = (List.length (settled (snd c))
                 + List.length (being_requested (snd c)))%nat;
  ord_latest : lastRequestTime (fields (snd c)) = last (admissions (snd c)) 0;
  ord_due : forall r due, running (snd c) = Sleeping r due ->
            exists now,
              clock0 <= now /\ now <= fst c /\
              lastRequestTime (fields (snd c)) <= Z.max 0 now /\
              0 < lastRequestTime (fields (snd c))
                  + minIntervalMs (fields (snd c)) - now /\
              due = now + sleep (lastRequestTime (fields (snd c))
                                 + minIntervalMs (fields (snd c)) - now);
  ord_last : lastRequestTime (fields (snd c)) <= Z.max 0 (fst c);
  ord_clock : clock0 <= fst c;
  ord_no_sleep : minIntervalMs (fields (snd c)) <= 0 -> 0 <= clock0 ->
                 forall r due, running (snd c) <> Sleeping r due
}.

End WithRequests.

Arguments Idle {R}.
Arguments Sleeping {R} r due.
Arguments Requesting {R} r.
Arguments minIntervalMs {R} t.
Arguments lastRequestTime {R} t.
Arguments queue {R} t.
Arguments isProcessing {R} t.
Arguments fields {R} s.
Arguments running {R} s.
Arguments admissions {R} s.
Arguments settled {R} s.
Arguments with_queue {R} q l.
Arguments with_isProcessing {R} b l.
Arguments with_lastRequestTime {R} time l.
Arguments waitTime {R} l now.
Arguments grant {R} r now' s.
Arguments iterate {R} now now' s.
Arguments processQueue {R} now now' s.
Arguments enqueue {R} r now now' s.
Arguments timer_fired {R} now' s.
Arguments request_settled {R} now now' s.
Arguments step {R} _ _.
Arguments reachable {R} minIntervalMs clock0 _.
Arguments invariant {R} minInterval clock0 c.
Arguments in_flight {R} s.
Arguments being_requested {R} s.
Arguments reachable_after {R} minIntervalMs clock0 _ _.
Arguments order_invariant {R} clock0 enqueued c.

End RateLimiter.

(* ===================================================================== *)
(** ** The run time: clock, timers, network *)
(* ===================================================================== *)

Module Runtime.

(** How an HTTP request goes: the response is read to its end (['end'] on
    the response, [data] being the string that its chunks added up to), or
    the request emits ['error'], or neither ever happens:
    the server does not answer, or the connection is closed after the head
    of the response and before its end; [queryDevices] sets no timeout and
    listens to nothing else. *)
Inductive http_outcome : Type :=
| Response (statusCode : Z) (data : string)
| RequestError (message : string)
| NeverEnds.

(** The request that [queryDevices] writes; [sn_list] stands for the body
    [JSON.stringify({ sn_list: snList })]. *)
Record request : Type := {
  method : string;
  path : string;
  timestamp_header : string;
  signature_header : string;
  sn_list : list string
}.

(** What can be observed of a run. *)
Inductive event : Type :=
| Granted (time : Z)
| Sent (time : Z) (req : request)
| RetryLogged (attempt : nat) (message : string)
| Slept (ms : Z).

(** What the run does not decide: how the [k]-th request ends and how long
    it takes, and how late the [k]-th timer fires. *)
Record env : Type := {
  respond : nat -> http_outcome;
  latency : nat -> N;
  lateness : nat -> N
}.

(** The clock of [Date.now()], the numbers of requests sent and of timers
    set, the events so far (oldest first), and the module-level
    [rateLimiter], whose queue holds the batch that each request function
    captured. *)
Record world : Type := {
  clock : Z;
  requests : nat;
  timers : nat;
  trace : list event;
  limiter : RateLimiter.state (list string)
}.

Definition M (A : Type) : Type := env -> world -> A * world.

Definition ret {A : Type} (a : A) : M A := fun _ w => (a, w).

Definition bind {A B : Type} (m : M A) (k : A -> M B) : M B :=
  fun e w => let '(a, w') := m e w in k a e w'.

Definition Date_now : M Z := fun _ w => (clock w, w).

Definition emit (ev : event) : M unit := fun _ w =>
  (tt, {| clock := clock w; requests := requests w; timers := timers w;
          trace := trace w ++ [ev]; limiter := limiter w |}).

(** [await sleep(ms)]: the timer fires after the delay that [setTimeout]
    gives it, or later. *)
Definition sleep (ms : Z) : M unit := fun e w =>
  (tt, {| clock := clock w + Js.setTimeout_delay ms + Z.of_N (lateness e (timers w));
          requests := requests w; timers := S (timers w);
          trace := trace w ++ [Slept ms]; limiter := limiter w |}).

(** One network round trip. *)
Definition http_request (req : request) : M http_outcome := fun e w =>
  (respond e (requests w),
   {| clock := clock w + Z.of_N (latency e (requests w));
      requests := S (requests w); timers := timers w;
      trace := trace w ++ [Sent (clock w) req]; limiter := limiter w |}).

(** The timer of the limiter fires, at the time that is returned: when it is
    due, or later. *)
Definition timer_fires (due : Z) : M Z := fun e w =>
  let time := Z.max (clock w) (due + Z.of_N (lateness e (timers w))) in
  (time, {| clock := time; requests := requests w; timers := S (timers w);
            trace := trace w; limiter := limiter w |}).

Definition get_limiter : M (RateLimiter.state (list string)) := fun _ w =>
  (limiter w, w).

(** A turn of the limiter; the admissions it grants are added to the trace. *)
Definition limiter_turn
  (turn : RateLimiter.state (list string) -> RateLimiter.state (list string))
  (time : Z) : M unit := fun _ w =>
  let l := turn (limiter w) in
  let granted :=
    skipn (List.length (RateLimiter.admissions (limiter w)))
          (RateLimiter.admissions l) in
  (tt, {| clock := time; requests := requests w; timers := timers w;
          trace := trace w ++ map Granted granted; limiter := l |}).

(** The durations of the sleeps in a list of events. *)
Definition slept (events : list event) : list Z :=
  flat_map (fun ev => match ev with Slept ms => [ms] | _ => [] end) events.

(** The number of requests in a list of events. *)
Definition sent (events : list event) : nat :=
  List.length (List.filter (fun ev => match ev with Sent _ _ => true | _ => false end)
                           events).

End Runtime.

Declare Scope run_scope.
Delimit Scope run_scope with run.
Notation "x <- m ;; k" := (Runtime.bind m (fun x => k))
  (at level 61, m at next level, right associativity) : run_scope.
Notation "m ;; k" := (Runtime.bind m (fun _ => k))
  (at level 61, right associativity) : run_scope.

(* ===================================================================== *)
(** ** api/client.js *)
(* ===================================================================== *)

Module Client.
Import Runtime.

Definition BASE_URL : string := "http://localhost:3000".
Definition ENDPOINT : string := "/device/real/query".
Definition MAX_RETRIES : nat := 3.
Definition RETRY_DELAY_MS : Z := 2000.

(** [error.retryable], as a condition. *)
Definition retryable (error : Js.thrown) : bool :=
  match error with
  | Js.ErrorObject _ => false
  | Js.Rejection _ _ r => r
  end.

(** [error.message] *)
Definition message (error : Js.thrown) : string :=
  match error with
  | Js.ErrorObject m => m
  | Js.Rejection _ m _ => m
  end.

(** The request that [queryDevices] writes in the world [w]. *)
Definition request_at (snList : list string) (w : world) : request := {|
  method := "POST";
  path := ENDPOINT;
  timestamp_header := Js.String_of_Z (clock w);
  signature_header :=
    Signature.generateSignature ENDPOINT
      (Signature.TsString (Js.String_of_Z (clock w)));
  sn_list := snList
|}.

(** The world after the log line and the sleep that precede a retry. *)
Definition backed_off (attempt : nat) (error : Js.thrown) (e : env) (w : world)
  : world := {|
  clock := clock w + Js.setTimeout_delay (RETRY_DELAY_MS * Z.of_nat attempt)
           + Z.of_N (lateness e (timers w));
  requests := requests w;
  timers := S (timers w);
  trace := trace w ++ [RetryLogged attempt (message error);
                       Slept (RETRY_DELAY_MS * Z.of_nat attempt)];
  limiter := limiter w
|}.

(** The outcomes after which [queryDevicesWithRetry] may try again: an error
    of the request, the status 429, a status from 500 on. *)
Definition transient (outcome : http_outcome) : bool :=
  match outcome with
  | RequestError _ => true
  | Response statusCode _ => (statusCode =? 429) || (500 <=? statusCode)
  | NeverEnds => false
  end.

(** A request that carries the headers of lines 44 to 58 for the time at
    which it is sent: a POST to the end point, that time as its timestamp,
    and the MD5 of the end point, the token and that timestamp as its
    signature, for the serial numbers [snList]. *)
Definition signed (snList : list string) (ev : event) : Prop :=
  match ev with
  | Sent time req =>
      method req = "POST"%string /\ path req = ENDPOINT /\
      timestamp_header req = Js.String_of_Z time /\
      signature_header req
      = Signature.md5_hex (path req ++ Signature.TOKEN ++ timestamp_header req)%string /\
      Signature.all_chars Signature.is_lower_hex (signature_header req) = true /\
      String.length (signature_header req) = 32%nat /\
      sn_list req = snList
  | _ => True
  end.

Section WithJSON.

(** [JSON.parse]: the value, or the message of the [SyntaxError]. *)
Variable JSON_parse : string -> string + Js.value.

(** How the promise of [queryDevices] is settled, lines 69 to 90; [None]
    when it never is. *)
Definition settle (outcome : http_outcome) : option (Js.completion Js.value) :=
  match outcome with
  | Response statusCode data =>
      if statusCode =? 200 then
        match JSON_parse data with
        | inr v => Some (inr v)
        | inl e_message =>
            Some (inl (Js.ErrorObject
                         ("Failed to parse response: " ++ e_message)%string))
        end
      else if statusCode =? 429 then
        Some (inl (Js.Rejection (Js.StatusCode 429) "Rate limited" true))
      else
        Some (inl (Js.Rejection (Js.StatusCode statusCode) data
                     (500 <=? statusCode)))
  | RequestError error_message =>
      Some (inl (Js.Rejection Js.NETWORK_ERROR error_message true))
  | NeverEnds => None
  end.

(** The promise that [queryDevices] returns: how it is settled, or [None]
    when it stays pending. *)
Definition queryDevices (snList : list string)
  : M (option (Js.completion Js.value)) :=
  (now <- Date_now ;;
   let timestamp := Js.String_of_Z now in
   let signature :=
     Signature.generateSignature ENDPOINT (Signature.TsString timestamp) in
   outcome <- http_request {|
     method := "POST";
     path := ENDPOINT;
     timestamp_header := timestamp;
     signature_header := signature;
     sn_list := snList
   |} ;;
   ret (settle outcome))%run.

(** The recursion ends because [attempt] grows up to [MAX_RETRIES]. An
    [await] of a promise that stays pending does not come back: the promise
    of the call stays pending too. *)
Equations? queryDevicesWithRetry (snList : list string) (attempt : nat)
  (e : env) (w : world) : option (Js.completion Js.value) * world
  by wf (MAX_RETRIES - attempt)%nat lt :=
queryDevicesWithRetry snList attempt e w with queryDevices snList e w := {
  | (None, w1) => (None, w1)
  | (Some (inr response), w1) => (Some (inr response), w1)
  | (Some (inl error), w1)
      with inspect (retryable error && (attempt <? MAX_RETRIES)%nat) := {
      | exist _ true Hretry =>
          let '(_, w2) :=
            (emit (RetryLogged attempt (message error)) ;;
             sleep (RETRY_DELAY_MS * Z.of_nat attempt))%run e w1 in
          queryDevicesWithRetry snList (attempt + 1) e w2
      | exist _ false _ => (Some (inl error), w1) } }.
Proof.
  apply andb_prop in Hretry. destruct Hretry as [_ Hlt].
  apply Nat.ltb_lt in Hlt. unfold MAX_RETRIES in Hlt.
  change (3 - (attempt + 1) < 3 - attempt)%nat. lia.
Qed.

(** What a call of [queryDevicesWithRetry] does to the world: it sends [k]
    requests, the first one at once, with [1 <= k] and, from the attempt 1
    on, [k <= MAX_RETRIES + 1 - attempt]; it sleeps once between two of
    them; its promise is settled as the last one is, or stays pending with
    it; it leaves the limiter alone and the clock does not go back. *)
Record run_facts (snList : list string) (attempt : nat) (e : env) (w : world)
  (run : option (Js.completion Js.value) * world) : Prop := {
  run_requests : exists k,
      requests (snd run) = (requests w + k)%nat /\ (1 <= k)%nat /\
      (k <= Nat.max 1 (MAX_RETRIES + 1 - attempt))%nat /\
      timers (snd run) = (timers w + (k - 1))%nat /\
      fst run = settle (respond e (requests w + k - 1)%nat);
  run_limiter_kept : limiter (snd run) = limiter w;
  run_clock : clock w <= clock (snd run);
  run_trace : exists rest,
      trace (snd run) = trace w ++ Sent (clock w) (request_at snList w) :: rest /\
      Forall (fun ev => forall time, ev <> Granted time) rest
}.

End WithJSON.

End Client.

(* ===================================================================== *)
(** ** The vocabulary of the specification *)
(* ===================================================================== *)

Module Spec.

(** The error taxonomy of the specification. *)
Inductive kind : Type :=
| ParseError
| RateLimited
| ServerError
| ClientError
| NetworkError.

Inductive classified : Type :=
| Success (data : Js.value)
| Failure (k : kind) (retryable : bool).

(** The classification rules of the specification, word for word; [None]
    for the status codes that they do not name. A connection-level failure
    (timeout, refused, reset) is an error that the request emits, or a
    request that never ends. *)
Definition classify (JSON_parse : string -> string + Js.value)
  (outcome : Runtime.http_outcome) : option classified :=
  match outcome with
  | Runtime.RequestError _ => Some (Failure NetworkError true)
  | Runtime.NeverEnds => Some (Failure NetworkError true)
  | Runtime.Response status body =>
      if status =? 200 then
        match JSON_parse body with
        | inr data => Some (Success data)
        | inl _ => Some (Failure ParseError false)
        end
      else if status =? 429 then Some (Failure RateLimited true)
      else if 500 <=? status then Some (Failure ServerError true)
      else if (400 <=? status) && (status <=? 499) then
        Some (Failure ClientError false)
      else None
  end.

(** The kind of a value that [queryDevices] rejects with, read off its
    [code], or off the message of the [Error] object. *)
Definition kind_of (error : Js.thrown) : option kind :=
  match error with
  | Js.ErrorObject m =>
      if Js.startsWith m "Failed to parse response: " then Some ParseError
      else None
  | Js.Rejection Js.NETWORK_ERROR _ _ => Some NetworkError
  | Js.Rejection (Js.StatusCode n) _ _ =>
      if n =? 429 then Some RateLimited
      else if 500 <=? n then Some ServerError
      else if (400 <=? n) && (n <=? 499) then Some ClientError
      else None
  end.

(** How the specification reads what the promise of [queryDevices] is
    settled with. *)
Definition abstract (c : Js.completion Js.value) : option classified :=
  match c with
  | inr data => Some (Success data)
  | inl error =>
      option_map (fun k => Failure k (Client.retryable error)) (kind_of error)
  end.

End Spec.

(* ===================================================================== *)
(** ** index.js *)
(* ===================================================================== *)

Module Index.
Import Runtime.

(** An element of [errors]; [error] is [error.message || error]. *)
Record error_entry : Type := {
  batch : nat;
  devices : list string;
  error : string + Js.thrown
}.

(** [error.message || error] *)
Definition message_or_error (error : Js.thrown) : string + Js.thrown :=
  if String.eqb (Client.message error) EmptyString then inr error
  else inl (Client.message error).

Section WithHost.

Variable JSON_parse : string -> string + Js.value.
Variable Number_toString_exponential : float -> string.

(** The event loop while the limiter is busy: the timer of its sleep fires,
    or the request function it called, [() => queryDevicesWithRetry(batch)],
    runs to its end and its promise is settled; when that promise stays
    pending nothing is left to happen, and the limiter stays where it is.
    The settlements are returned in order. [fuel] bounds the number of
    turns. *)
Fixpoint run_limiter (fuel : nat)
  : M (list (list string * Js.completion Js.value)) :=
  match fuel with
  | O => ret []
  | S fuel' =>
      (l <- get_limiter ;;
       match RateLimiter.running l with
       | RateLimiter.Idle => ret []
       | RateLimiter.Sleeping _ due =>
           time <- timer_fires due ;;
           limiter_turn (RateLimiter.timer_fired time) time ;;
           run_limiter fuel'
       | RateLimiter.Requesting batch =>
           promise <- Client.queryDevicesWithRetry JSON_parse batch 1 ;;
           match promise with
           | None => ret []
           | Some result =>
               now <- Date_now ;;
               limiter_turn (RateLimiter.request_settled now now) now ;;
               rest <- run_limiter fuel' ;;
               ret ((batch, result) :: rest)
           end
       end)%run
  end.

(** [await rateLimiter.enqueue(async () => queryDevicesWithRetry(batch))]:
    the call, then the event loop until the limiter is idle or stuck. The
    promise of the call is settled after those of the requests ahead of it,
    the one in flight and the queued ones; [None] stands for a promise that
    stays pending. Each request takes at most two turns. *)
Definition enqueue_await (batch : list string)
  : M (option (Js.completion Js.value)) :=
  (now <- Date_now ;;
   l <- get_limiter ;;
   let ahead := (List.length (RateLimiter.in_flight l)
                 + List.length (RateLimiter.queue (RateLimiter.fields l)))%nat in
   limiter_turn (RateLimiter.enqueue batch now now) now ;;
   settlements <- run_limiter (2 * (ahead + 1)) ;;
   ret (option_map snd (nth_error settlements ahead)))%run.

(** The [for] loop of [main] over [batches[i ..]]: lines 40 to 59, without
    what they print. *)
Fixpoint main_loop (batches : list (list string)) (i : nat)
  (results : list Js.value) (errors : list error_entry)
  : M (option (list Js.value * list error_entry)) :=
  match batches with
  | [] => ret (Some (results, errors))
  | batch :: rest =>
      let batchNumber := (i + 1)%nat in
      let failed (error : Js.thrown) :=
        errors ++ [{| batch := batchNumber; devices := batch;
                      error := message_or_error error |}] in
      (settlement <- enqueue_await batch ;;
       match settlement with
       | None => ret None
       | Some (inr response) =>
           match Js.Get response "data" with
           | inl error => main_loop rest (S i) results (failed error)
           | inr (Some data) =>
               if Js.truthy data
               then main_loop rest (S i) (results ++ [data]) errors
               else main_loop rest (S i) results errors
           | inr None => main_loop rest (S i) results errors
           end
       | Some (inl error) => main_loop rest (S i) results (failed error)
       end)%run
  end.

(** The limiter between two calls of [main]: nothing queued, no activation
    of [processQueue]. *)
Definition idle (l : RateLimiter.state (list string)) : Prop :=
  RateLimiter.running l = RateLimiter.Idle /\
  RateLimiter.queue (RateLimiter.fields l) = [] /\
  RateLimiter.isProcessing (RateLimiter.fields l) = false.

(** When an idle limiter, called in the world [w], grants the admission:
    at once, or when the timer of its sleep fires. *)
Definition grant_time (e : env) (w : world) : Z :=
  let waitTime := RateLimiter.waitTime (RateLimiter.fields (limiter w)) (clock w) in
  if 0 <? waitTime
  then clock w + RateLimiter.sleep waitTime + Z.of_N (lateness e (timers w))
  else clock w.

(** The world in which the request function of [batch] is called. *)
Definition granted (batch : list string) (e : env) (w : world) : world :=
  let l := limiter w in
  let waitTime := RateLimiter.waitTime (RateLimiter.fields l) (clock w) in
  {| clock := grant_time e w;
     requests := requests w;
     timers := if 0 <? waitTime then S (timers w) else timers w;
     trace := trace w ++ [Granted (grant_time e w)];
     limiter := {|
       RateLimiter.fields := {|
         RateLimiter.minIntervalMs := RateLimiter.minIntervalMs (RateLimiter.fields l);
         RateLimiter.lastRequestTime := grant_time e w;
         RateLimiter.queue := [];
         RateLimiter.isProcessing := true |};
       RateLimiter.running := RateLimiter.Requesting batch;
       RateLimiter.admissions := RateLimiter.admissions l ++ [grant_time e w];
       RateLimiter.settled := RateLimiter.settled l |} |}.

(** The world after the promise of [batch] is settled in the world [w1]. *)
Definition released (batch : list string) (w1 : world) : world :=
  let l := limiter w1 in
  {| clock := clock w1; requests := requests w1; timers := timers w1;
     trace := trace w1;
     limiter := {|
       RateLimiter.fields :=
         RateLimiter.with_isProcessing false (RateLimiter.fields l);
       RateLimiter.running := RateLimiter.Idle;
       RateLimiter.admissions := RateLimiter.admissions l;
       RateLimiter.settled := RateLimiter.settled l ++ [batch] |} |}.

(** One pass of a batch through the limiter and the client; when the
    promise of the batch stays pending the limiter is not released. *)
Definition item_run (batch : list string) (e : env) (w : world)
  : option (Js.completion Js.value) * world :=
  let '(promise, w1) :=
    Client.queryDevicesWithRetry JSON_parse batch 1 e (granted batch e w) in
  match promise with
  | Some c => (Some c, released batch w1)
  | None => (None, w1)
  end.

(** Where the loop of [main] records a settled batch: in [results], in
    [errors], or nowhere. *)
Inductive logged : Type :=
| ToResults (data : Js.value)
| ToErrors (error : Js.thrown)
| Unrecorded.

Definition log_of (c : Js.completion Js.value) : logged :=
  match c with
  | inl error => ToErrors error
  | inr response =>
      match Js.Get response "data" with
      | inl error => ToErrors error
      | inr (Some data) => if Js.truthy data then ToResults data else Unrecorded
      | inr None => Unrecorded
      end
  end.

Definition failed_batch (batchNumber : nat) (batch : list string)
  (error : Js.thrown) : error_entry :=
  {| batch := batchNumber; devices := batch;
     error := message_or_error error |}.

(** The batches one after the other, up to the first one whose promise
    stays pending: what each settles with, and the world at the end. *)
Fixpoint run_items (batches : list (list string)) (e : env) (w : world)
  : list (Js.completion Js.value) * world :=
  match batches with
  | [] => ([], w)
  | batch :: rest =>
      match item_run batch e w with
      | (Some c, w1) => let '(cs, w2) := run_items rest e w1 in (c :: cs, w2)
      | (None, w1) => ([], w1)
      end
  end.

(** The part of [results] that comes from the settlements [cs]. *)
Fixpoint results_of (cs : list (Js.completion Js.value)) : list Js.value :=
  match cs with
  | [] => []
  | c :: cs' =>
      match log_of c with
      | ToResults data => data :: results_of cs'
      | _ => results_of cs'
      end
  end.

(** The part of [errors] that comes from the batches after the [i] first
    ones and their settlements. *)
Fixpoint errors_of (i : nat) (batches : list (list string))
  (cs : list (Js.completion Js.value)) : list error_entry :=
  match batches, cs with
  | batch :: rest, c :: cs' =>
      match log_of c with
      | ToErrors error => failed_batch (i + 1) batch error :: errors_of (S i) rest cs'
      | _ => errors_of (S i) rest cs'
      end
  | _, _ => []
  end.



End WithHost.

(** The world when [main] starts at the time [startTime], with the
    [rateLimiter] of line 11. *)
Definition start (startTime : Z) : world := {|
  clock := startTime;
  requests := 0;
  timers := 0;
  trace := [];
  limiter := RateLimiter.initial (list string) 1100
|}.

End Index.

(* ===================================================================== *)
(** ** Scenarios *)
(* ===================================================================== *)

Module Scenario.
Import Runtime.

(** The time at which the scenarios start: 2023-11-14T22:13:20Z. *)
Definition T0 : Z := 1700000000000.

Definition quote : string := String (ascii_of_nat 34) EmptyString.

(** The body [{"data":[]}]. *)
Definition body_with_data : string :=
  ("{" ++ quote ++ "data" ++ quote ++ ":[]}")%string.

(** [JSON.parse] on the bodies of the scenarios; the message of the
    [SyntaxError] is shortened. *)
Definition JSON_parse (text : string) : string + Js.value :=
  if String.eqb text "{}" then inr (Js.JObj [])
  else if String.eqb text "null" then inr Js.JNull
  else if String.eqb text body_with_data then inr (Js.JObj [("data", Js.JArr [])])
  else inl "Unexpected token"%string.

(** A service that answers after 10 ms, with timers that fire on time. *)
Definition service (replies : nat -> http_outcome) : env := {|
  respond := replies;
  latency := fun _ => 10%N;
  lateness := fun _ => 0%N
|}.

(** 429 for the first request, 200 with data from then on. *)
Definition limited_once : env :=
  service (fun k => match k with
                    | O => Response 429 EmptyString
                    | _ => Response 200 body_with_data
                    end).

(** 200 with a body that has no [data]. *)
Definition without_data : env := service (fun _ => Response 200 "{}").

(** 500 with the same body for every request. *)
Definition always_500 : env := service (fun _ => Response 500 "oops").

(** 404 with that body. *)
Definition always_404 : env := service (fun _ => Response 404 "oops").

(** A device record as the service sends it. *)
Definition device_record (sn power status : string) : Js.value :=
  Js.JObj [("sn", Js.JStr sn); ("power", Js.JStr power);
           ("status", Js.JStr status);
           ("last_updated", Js.JStr "2024-01-01T00:00:00.000Z")].

Definition payload1 : Js.value :=
  Js.JArr [device_record "SN-000" "1.5 kW" "Online";
           device_record "SN-001" "3.5 kW" "Online";
           device_record "SN-002" "2.5 kW" "Offline";
           device_record "SN-003" "2.5 kW" "Online";
           device_record "SN-004" "0.25 kW" "Offline";
           device_record "SN-005" "4.75 kW" "Online";
           device_record "SN-006" "2.5 kW" "Online";
           device_record "SN-007" "2.5 kW" "Offline";
           device_record "SN-008" "2.5 kW" "Online";
           device_record "SN-009" "2.5 kW" "Offline"].

Definition payload2 : Js.value :=
  Js.JArr [device_record "SN-010" "2.5 kW" "Online";
           device_record "SN-011" "5 kW" "Online";
           device_record "SN-012" "0 kW" "Offline";
           device_record "SN-013" "2.5 kW" "Online";
           device_record "SN-014" "2.5 kW" "Offline"].

(** The times of the requests and of the admissions in a trace. *)
Definition sent_times (events : list event) : list Z :=
  flat_map (fun ev => match ev with Sent time _ => [time] | _ => [] end) events.

Definition granted_times (events : list event) : list Z :=
  flat_map (fun ev => match ev with Granted time => [time] | _ => [] end) events.

(** A limiter of 1100 ms after a first call at [T0], settled 50 ms later, and
    a second call 60 ms after the first: it sleeps until [T0 + 1100]. *)
Definition limiter_sleeping : Z * RateLimiter.state nat :=
  let s1 := RateLimiter.enqueue 1%nat T0 T0 (RateLimiter.initial nat 1100) in
  let s2 := RateLimiter.request_settled (T0 + 50) (T0 + 50) s1 in
  (T0 + 60, RateLimiter.enqueue 2%nat (T0 + 60) (T0 + 60) s2).

(** The same limiter with a third call while it sleeps, after the timer has
    fired at [T0 + 1101]. *)
Definition limiter_requesting : Z * RateLimiter.state nat :=
  let s4 := RateLimiter.enqueue 3%nat (T0 + 70) (T0 + 70) (snd limiter_sleeping) in
  (T0 + 1101, RateLimiter.timer_fired (T0 + 1101) s4).

(** A service that answers every request with 200 and a body with [data]. *)
Definition always_ok : env := service (fun _ => Response 200 body_with_data).

(** A service that answers every request with 200 and the body [null]. *)
Definition always_null : env := service (fun _ => Response 200 "null").

(** A service whose first response is cut off after its head, and that
    answers the following requests with 200 and a body with [data]. *)
Definition cut_off_once : env :=
  service (fun k => match k with
                    | O => NeverEnds
                    | S _ => Response 200 body_with_data
                    end).

(** A service that answers 500 and then 404. *)
Definition busy_then_missing : env :=
  service (fun k => match k with
                    | O => Response 500 "oops"
                    | S _ => Response 404 "gone"
                    end).

(** An interval beyond the delays of the timers, of some 34 days. *)
Definition long_interval : Z := 3000000000.

(** A limiter of [long_interval] after a first call at [T0], settled 50 ms
    later, and a second call 60 ms after the first, whose timer fired 2 ms
    later. *)
Definition limiter_overflowed : Z * RateLimiter.state nat :=
  let s1 := RateLimiter.enqueue 1%nat T0 T0 (RateLimiter.initial nat long_interval) in
  let s2 := RateLimiter.request_settled (T0 + 50) (T0 + 50) s1 in
  let s3 := RateLimiter.enqueue 2%nat (T0 + 60) (T0 + 60) s2 in
  (T0 + 62, RateLimiter.timer_fired (T0 + 62) s3).

End Scenario.

(* ===================================================================== *)
(** * Theorems *)
(* ===================================================================== *)

(** ** Batching *)

Section Batches.
Context {A : Type}.
Import DeviceManager.

Lemma well_sized_cons b (x : list A) bs :
  List.length x = b -> (1 <= b)%nat -> well_sized b bs -> well_sized b (x :: bs).
Proof.
  intros Hx Hb [Hall Hfull]. split.
  - constructor; [lia | exact Hall].
  - intros [|k] Hk; simpl in *; [exact Hx | apply Hfull; lia].
Qed.

Lemma well_sized_single b (x : list A) :
  (1 <= List.length x <= b)%nat -> well_sized b [x].
Proof.
  intros Hx. split.
  - constructor; [exact Hx | constructor].
  - intros k Hk. simpl in Hk. lia.
Qed.

Lemma slice_length (array : list A) i b :
  List.length (Js.slice array i (i + b)) = Nat.min b (List.length array - i).
Proof.
  unfold Js.slice. rewrite length_firstn, length_skipn. f_equal. lia.
Qed.

Lemma slice_skipn (array : list A) i b :
  Js.slice array i (i + b) ++ skipn (i + b) array = skipn i array.
Proof.
  unfold Js.slice. replace (i + b - i)%nat with b by lia.
  rewrite Nat.add_comm, <- skipn_skipn. apply firstn_skipn.
Qed.

(** From index [i] on, the loop cuts the rest of the array into batches and
    appends them to the ones it was given. *)
Lemma createBatches_loop_spec (b : nat) (Hb : (1 <= b)%nat) fuel :
  forall (array : list A) i acc,
    (List.length array - i + b <= fuel * b)%nat ->
    exists bs,
      createBatches_loop fuel array b i acc = Some (acc ++ bs) /\
      List.concat bs = skipn i array /\
      well_sized b bs.
Proof.
  induction fuel as [|fuel IH]; intros array i acc Hfuel; [simpl in Hfuel; lia|].
  simpl. destruct (Nat.ltb_spec i (List.length array)) as [Hlt|Hge].
  - destruct (IH array (i + b)%nat (acc ++ [Js.slice array i (i + b)]))
      as (bs & Hrun & Hcat & Hsz).
    { assert (Hf : (1 <= fuel)%nat) by (destruct fuel; simpl in Hfuel; lia).
      assert (Hm : (b <= fuel * b)%nat) by nia.
      simpl in Hfuel. lia. }
    exists (Js.slice array i (i + b) :: bs). split; [|split].
    + rewrite Hrun, <- app_assoc. reflexivity.
    + simpl. rewrite Hcat. apply slice_skipn.
    + destruct bs as [|y bs'].
      * apply well_sized_single. rewrite slice_length. lia.
      * apply well_sized_cons; [|exact Hb|exact Hsz].
        rewrite slice_length.
        assert (Hy : (1 <= List.length y)%nat).
        { destruct Hsz as [Hall _]. inversion Hall; subst; lia. }
        assert (Hrest : (1 <= List.length (skipn (i + b) array))%nat).
        { rewrite <- Hcat. simpl. rewrite length_app. lia. }
        rewrite length_skipn in Hrest. lia.
  - exists []. split; [|split].
    + now rewrite app_nil_r.
    + simpl. symmetry. apply skipn_all2. lia.
    + split; [constructor|]. intros k Hk. simpl in Hk. lia.
Qed.

End Batches.

(** With a positive batch size [createBatches] returns, and what it returns
    is the input cut into well-sized consecutive slices. *)
Lemma createBatches_spec {A : Type} (array : list A) (b : nat) :
  (1 <= b)%nat ->
  exists batches,
    DeviceManager.createBatches array b = Some batches /\
    List.concat batches = array /\
    DeviceManager.well_sized b batches.
Proof.
  intros Hb. unfold DeviceManager.createBatches.
  destruct (createBatches_loop_spec b Hb (S (List.length array)) array 0%nat [])
    as (bs & Hrun & Hcat & Hsz); [simpl; nia|].
  exists bs. repeat split; try assumption; apply Hsz.
Qed.

(** C8. [createBatches] with the batch size 10 cuts any list into consecutive
    slices, in order: their concatenation is the input, each has at most 10
    elements and each but the last exactly 10. A population of 25 yields the
    three batches of sizes 10, 10 and 5, the last one holding the elements at
    the indices 20 to 24. *)
Theorem createBatches_ten {A : Type} (array : list A) :
  exists batches,
    DeviceManager.createBatches array DeviceManager.BATCH_SIZE = Some batches /\
    List.concat batches = array /\
    Forall (fun batch => (List.length batch <= 10)%nat) batches /\
    (forall k, (S k < List.length batches)%nat ->
               List.length (nth k batches []) = 10%nat) /\
    (List.length array = 25%nat ->
     exists b0 b1 b2,
       batches = [b0; b1; b2] /\
       map (@List.length A) batches = [10; 10; 5]%nat /\
       b2 = Js.slice array 20 25 /\
       forall d, map (fun i => nth i array d) [20; 21; 22; 23; 24]%nat = b2).
Proof.
  destruct (createBatches_spec array DeviceManager.BATCH_SIZE)
    as (batches & Hrun & Hcat & Hall & Hfull); [unfold DeviceManager.BATCH_SIZE; lia|].
  exists batches. split; [exact Hrun|]. split; [exact Hcat|]. split; [|split].
  - eapply Forall_impl; [|exact Hall]. unfold DeviceManager.BATCH_SIZE.
    intros batch Hb. simpl in Hb. lia.
  - exact Hfull.
  - intros Hlen.
    do 25 (destruct array as [|? array]; [discriminate Hlen|]).
    destruct array; [|discriminate Hlen].
    cbv in Hrun. injection Hrun as <-.
    do 3 eexists. repeat split.
Qed.

(** The scenario of C8 on the client's own serial numbers. *)
Lemma createBatches_ten_witness :
  List.length (DeviceManager.generateSerialNumbers 25) = 25%nat /\
  exists b0 b1,
    DeviceManager.createBatches (DeviceManager.generateSerialNumbers 25) 10
    = Some [b0; b1; ["SN-020"; "SN-021"; "SN-022"; "SN-023"; "SN-024"]].
Proof.
  split; [reflexivity|].
  destruct (createBatches_ten (DeviceManager.generateSerialNumbers 25))
    as (batches & Hrun & _ & _ & _ & Hscn).
  destruct (Hscn eq_refl) as (b0 & b1 & b2 & -> & _ & -> & _).
  exists b0, b1. exact Hrun.
Defined.

(** ** Signature *)

(** The RFC 1321 test suite, as a check of [Md5]. *)
Example md5_rfc1321_suite :
  Signature.md5_hex EmptyString = "d41d8cd98f00b204e9800998ecf8427e" /\
  Signature.md5_hex "a" = "0cc175b9c0f1b6a831c399e269772661" /\
  Signature.md5_hex "abc" = "900150983cd24fb0d6963f7d28e17f72" /\
  Signature.md5_hex "message digest" = "f96b697d7cb7938d525a2f31aaf161d0" /\
  Signature.md5_hex "abcdefghijklmnopqrstuvwxyz" = "c3fcd3d76192e4007dfb496cca67e13b" /\
  Signature.md5_hex
    "ABCDEFGHIJKLMNOPQRSTUVWXYZabcdefghijklmnopqrstuvwxyz0123456789"
  = "d174ab98d277d9f5a5611c2c9f419d9f" /\
  Signature.md5_hex
    "12345678901234567890123456789012345678901234567890123456789012345678901234567890"
  = "57edf4a22be3c955ac49da2e2107b67a".
Proof. vm_compute. repeat split. Qed.

(** ** Numbers and strings *)

(** [Number::toString] and [parseFloat] on numbers of every notation: what a
    number prints as parses back to it, and these strings are what their
    numbers print as. *)
Example Number_toString_suite :
  map (fun s => Js.Number_toString (Js.parseFloat_string s))
      ["0"; "0.1"; "1.5"; "-1.5"; "37.5"; "123.456"; "0.000001"; "1e-7"; "5e-324";
       "1700000000000"; "9007199254740992"; "100000000000000000000"; "1e+21";
       "1.7976931348623157e+308"; "0.30000000000000004"; "Infinity"; "-Infinity";
       "NaN"]
  = ["0"; "0.1"; "1.5"; "-1.5"; "37.5"; "123.456"; "0.000001"; "1e-7"; "5e-324";
     "1700000000000"; "9007199254740992"; "100000000000000000000"; "1e+21";
     "1.7976931348623157e+308"; "0.30000000000000004"; "Infinity"; "-Infinity";
     "NaN"] /\
  map Js.String_of_Z [0; -42; 1700000000000; 2 ^ 53 + 1; 2 ^ 60; 2 ^ 64; 10 ^ 21;
                      2 ^ 70; 2 ^ 1024]
  = ["0"; "-42"; "1700000000000"; "9007199254740992"; "1152921504606847000";
     "18446744073709552000"; "1e+21"; "1.1805916207174113e+21"; "Infinity"] /\
  Js.ToString (Js.JArr [Js.JNum 1; Js.JNull; Js.JStr "a";
                        Js.JArr [Js.JBool true; Js.JArr []]; Js.JObj []])
  = inr "1,,a,true,,[object Object]" /\
  Js.ToString (Js.JArr [Js.JNum 1; Js.JObj [("toString", Js.JNum 1)]])
  = inl (Js.ErrorObject "Cannot convert object to primitive value").
Proof. vm_compute. repeat split. Qed.

(** ** Aggregation *)

Section Aggregation.
Import DeviceManager.

Variable Number_toString_exponential : float -> string.

Lemma filter_disjoint_length {X : Type} (p q : X -> bool) (l : list X) :
  (forall x, p x && q x = false) ->
  (List.length (List.filter p l) + List.length (List.filter q l)
   <= List.length l)%nat.
Proof.
  intros Hpq. induction l as [|a l IH]; simpl; [lia|].
  specialize (Hpq a). destruct (p a), (q a); simpl in *; try discriminate; lia.
Qed.

Lemma filter_cover {X : Type} (p q : X -> bool) (l : list X) :
  (forall x, p x && q x = false) ->
  (List.length (List.filter p l) + List.length (List.filter q l)
   = List.length l)%nat ->
  Forall (fun x => p x || q x = true) l.
Proof.
  intros Hpq. induction l as [|a l IH]; simpl; [constructor|].
  pose proof (filter_disjoint_length p q l Hpq) as Hle.
  pose proof (Hpq a) as Ha.
  destruct (p a) eqn:Pa, (q a) eqn:Qa; simpl in *; try discriminate;
    intros Hlen; try lia; constructor; try (apply IH; lia);
    rewrite ?Pa, ?Qa; reflexivity.
Qed.

Lemma status_disjoint d :
  has_status "Online" d && has_status "Offline" d = false.
Proof.
  unfold has_status. destruct d as [| | | | |fields]; try reflexivity.
  destruct (Js.lookup "status" fields) as [[| | |s'| |]|]; try reflexivity.
  destruct (String.eqb_spec s' "Online") as [->|]; reflexivity.
Qed.

(** On device records with a status the callback does not throw, and the
    filter of the code is the filter of lists. *)
Lemma filter_status_is s (ds : list Js.value) :
  Forall (fun d => has_status "Online" d || has_status "Offline" d = true) ds ->
  Js.filter (status_is s) ds = inr (List.filter (has_status s) ds).
Proof.
  induction 1 as [|d ds Hd _ IH]; simpl; [reflexivity|].
  rewrite IH. unfold status_is, has_status in *.
  destruct d as [| | | | |fields]; simpl in *; try discriminate.
  destruct (Js.lookup "status" fields) as [[| | |s'| |]|]; try discriminate.
  reflexivity.
Qed.

(** C10. On the empty list of results [aggregateResults] returns: the three
    counts are 0 and the total power prints as ["0.00 kW"], and the two
    divisions by [totalDevices] are 0/0, which is [NaN], so that the
    percentage prints as ["NaN%"] and the average as ["NaN kW"]. The same
    holds of any results that flatten to no device. *)
Theorem aggregateResults_empty (now : Z) :
  let empty_report := {|
    summary := {|
      totalDevices := 0;
      onlineDevices := 0;
      offlineDevices := 0;
      onlinePercentage := "NaN%";
      totalPowerKW := "0.00 kW";
      averagePowerKW := "NaN kW";
      generatedAt := now
    |};
    devices := []
  |} in
  aggregateResults Number_toString_exponential now [] = inr empty_report /\
  Js.isNaN (Js.Number_of_nat 0 / Js.Number_of_nat 0 * 100)%float = true /\
  Js.isNaN (0 / Js.Number_of_nat 0)%float = true /\
  forall results, Js.flat results = [] ->
    aggregateResults Number_toString_exponential now results = inr empty_report.
Proof.
  intros empty_report.
  split; [reflexivity|]. split; [reflexivity|]. split; [reflexivity|].
  intros results Hflat. unfold aggregateResults. rewrite Hflat. reflexivity.
Qed.

Lemma reduce_add_power (ds : list Js.value) (powers : list float) :
  Forall2 has_power ds powers ->
  forall init,
    Js.reduce add_power ds init = inr (fold_left PrimFloat.add powers init).
Proof.
  induction 1 as [|d p ds powers (v & Hget & Hparse & Hnan) _ IH]; intros init;
    cbn [Js.reduce fold_left]; [reflexivity|].
  unfold add_power at 1. rewrite Hget, Hparse, Hnan. apply IH.
Qed.

(** C9. Two payloads that hold 15 devices, 9 of them with the status
    ['Online'] and 6 with the status ['Offline'], whose power values, read by
    [parseFloat], add up (in the order of the devices and the arithmetic of
    the numbers) to 37.5: the summary has the counts 15, 9 and 6, the
    percentage ["60.00%"], the total ["37.50 kW"] and the average
    ["2.50 kW"]. *)
Theorem aggregateResults_scenario (now : Z) (payload1 payload2 : Js.value)
  (powers : list float) :
  let flatResults := Js.flat [payload1; payload2] in
  List.length flatResults = 15%nat ->
  List.length (List.filter (has_status "Online") flatResults) = 9%nat ->
  List.length (List.filter (has_status "Offline") flatResults) = 6%nat ->
  Forall2 has_power flatResults powers ->
  fold_left PrimFloat.add powers 0%float = 37.5%float ->
  aggregateResults Number_toString_exponential now [payload1; payload2] =
  inr {|
    summary := {|
      totalDevices := 15;
      onlineDevices := 9;
      offlineDevices := 6;
      onlinePercentage := "60.00%";
      totalPowerKW := "37.50 kW";
      averagePowerKW := "2.50 kW";
      generatedAt := now
    |};
    devices := flatResults
  |}.
Proof.
  intros flatResults Hlen Hon Hoff Hpowers Hsum.
  assert (Hall : Forall (fun d => has_status "Online" d || has_status "Offline" d = true)
                        flatResults).
  { apply filter_cover; [exact status_disjoint|]. rewrite Hon, Hoff, Hlen. reflexivity. }
  unfold aggregateResults. fold flatResults.
  rewrite !(filter_status_is _ _ Hall), (reduce_add_power _ _ Hpowers), Hsum,
    Hon, Hoff, Hlen.
  reflexivity.
Qed.

End Aggregation.

(** The scenario of C9 on two concrete payloads of 10 and 5 devices, whose
    powers are not all the same. *)
Lemma aggregateResults_scenario_witness :
  let flatResults := Js.flat [Scenario.payload1; Scenario.payload2] in
  let powers := [1.5; 3.5; 2.5; 2.5; 0.25; 4.75; 2.5; 2.5; 2.5; 2.5;
                 2.5; 5; 0; 2.5; 2.5]%float in
  Forall2 DeviceManager.has_power flatResults powers /\
  DeviceManager.aggregateResults (fun _ => EmptyString) Scenario.T0
    [Scenario.payload1; Scenario.payload2]
  = inr {|
      DeviceManager.summary := {|
        DeviceManager.totalDevices := 15;
        DeviceManager.onlineDevices := 9;
        DeviceManager.offlineDevices := 6;
        DeviceManager.onlinePercentage := "60.00%";
        DeviceManager.totalPowerKW := "37.50 kW";
        DeviceManager.averagePowerKW := "2.50 kW";
        DeviceManager.generatedAt := Scenario.T0
      |};
      DeviceManager.devices := flatResults
    |}.
Proof.
  intros flatResults powers.
  assert (Hpowers : Forall2 DeviceManager.has_power flatResults powers).
  { repeat (constructor;
            [eexists; split; [reflexivity|split; vm_compute; reflexivity]|]).
    constructor. }
  split; [exact Hpowers|].
  exact (aggregateResults_scenario (fun _ => EmptyString) Scenario.T0
           Scenario.payload1 Scenario.payload2 powers
           eq_refl eq_refl eq_refl Hpowers eq_refl).
Defined.

(** ** The rate limiter *)

Section RateLimiterFacts.
Import RateLimiter.
Context {R : Type}.

Lemma spaced_snoc interval (times : list Z) (time : Z) :
  spaced interval times ->
  (times = [] \/ last times 0 + interval <= time) ->
  spaced interval (times ++ [time]).
Proof.
  induction times as [|t1 rest IH]; simpl; [tauto|].
  intros [Hhead Hrest] [Hnil|Hlast]; [discriminate|].
  destruct rest as [|t2 rest']; simpl in *.
  - repeat split. exact Hlast.
  - split; [exact Hhead|]. apply IH; [exact Hrest|right; exact Hlast].
Qed.

Lemma setTimeout_delay_in_range ms :
  1 <= ms <= Js.TIMEOUT_MAX -> Js.setTimeout_delay ms = ms.
Proof.
  intros [Hlo Hhi]. unfold Js.setTimeout_delay.
  apply Z.leb_le in Hlo, Hhi. now rewrite Hlo, Hhi.
Qed.

Lemma setTimeout_delay_positive ms : 1 <= Js.setTimeout_delay ms.
Proof.
  unfold Js.setTimeout_delay. destruct (Z.leb_spec 1 ms); cbn [andb]; [|lia].
  destruct (ms <=? Js.TIMEOUT_MAX); lia.
Qed.

Lemma invariant_grant minInterval clock0 (s : state R) r now' :
  minIntervalMs (fields s) = minInterval ->
  spaced minInterval (admissions s) ->
  lastRequestTime (fields s) = last (admissions s) 0 ->
  isProcessing (fields s) = true ->
  clock0 <= now' ->
  (admissions s <> [] -> last (admissions s) 0 + minInterval <= now') ->
  invariant minInterval clock0 (now', grant r now' s).
Proof.
  intros Hi Hs Hl Hp Hc Hgap.
  constructor; simpl; try assumption.
  - apply spaced_snoc; [exact Hs|].
    destruct (admissions s) as [|a l] eqn:E; [left; reflexivity|right].
    apply Hgap. discriminate.
  - now rewrite last_last.
  - intros _. rewrite last_last. lia.
  - intros _. exact Hp.
  - discriminate.
  - intros _ Hnil. destruct (admissions s); discriminate Hnil.
Qed.

Lemma invariant_iterate minInterval clock0 (s : state R) now now' :
  minInterval <= Js.TIMEOUT_MAX ->
  minIntervalMs (fields s) = minInterval ->
  spaced minInterval (admissions s) ->
  lastRequestTime (fields s) = last (admissions s) 0 ->
  (admissions s <> [] -> last (admissions s) 0 <= now) ->
  isProcessing (fields s) = true ->
  clock0 <= now -> now <= now' ->
  (minInterval <= clock0 -> admissions s = [] -> queue (fields s) <> []) ->
  invariant minInterval clock0 (now', iterate now now' s).
Proof.
  intros Hmax Hi Hs Hl Hpast Hp Hc Hnow Hfirst. unfold iterate.
  destruct (queue (fields s)) as [|r q] eqn:Hq.
  - constructor; simpl; try assumption; try congruence; try lia.
    + intros Hne. specialize (Hpast Hne). lia.
    + intros Hfar Hnil. exfalso. now apply (Hfirst Hfar Hnil).
  - unfold waitTime; simpl. rewrite Hi.
    destruct (Z.ltb_spec 0 (Z.max 0 (minInterval - (now - lastRequestTime (fields s)))))
      as [Hwait|Hnowait].
    + constructor; simpl; try assumption; try lia.
      * intros Hne. specialize (Hpast Hne). lia.
      * intros _. exact Hp.
      * intros r' due [= _ <-] Hne. specialize (Hpast Hne). unfold sleep.
        rewrite setTimeout_delay_in_range by lia. lia.
      * intros Hfar Hnil. rewrite Hl, Hnil in Hwait. simpl in Hwait. lia.
    + apply invariant_grant; simpl; try assumption; lia.
Qed.

(** Every turn of the event loop keeps the invariant. *)
Lemma invariant_step minInterval clock0 (c c' : Z * state R) :
  minInterval <= Js.TIMEOUT_MAX ->
  invariant minInterval clock0 c -> step c c' -> invariant minInterval clock0 c'.
Proof.
  intros Hmax [Hi Hs Hl Hpast Hg Hd Hc Hf] Hstep.
  destruct Hstep as [clock s r now now' H1 H2 | clock s r due now' Hrun H1 H2
                    | clock s r now now' Hrun H1 H2]; simpl in *.
  - unfold enqueue, processQueue; simpl.
    destruct (isProcessing (fields s)) eqn:Hp; simpl.
    + constructor; simpl; try assumption; try lia.
      * intros Hne. specialize (Hpast Hne). lia.
      * intros _. exact Hp.
      * intros Hfar Hnil. rewrite (Hf Hfar Hnil) in Hp. discriminate Hp.
    + rewrite length_app. simpl.
      replace (List.length (queue (fields s)) + 1 =? 0)%nat with false
        by (symmetry; apply Nat.eqb_neq; lia).
      apply invariant_iterate; simpl; try assumption; try lia.
      * intros Hne. specialize (Hpast Hne). lia.
      * intros _ _. destruct (queue (fields s)); discriminate.
  - unfold timer_fired. rewrite Hrun.
    apply invariant_grant; try assumption; try lia.
    + apply Hg. rewrite Hrun. discriminate.
    + intros Hne. specialize (Hd r due Hrun Hne). lia.
  - unfold request_settled. rewrite Hrun.
    apply invariant_iterate; simpl; try assumption; try lia.
    + intros Hne. specialize (Hpast Hne). lia.
    + apply Hg. rewrite Hrun. discriminate.
    + intros Hfar Hnil. rewrite (Hf Hfar Hnil) in Hrun. discriminate Hrun.
Qed.

Lemma invariant_reachable minInterval clock0 (c : Z * state R) :
  minInterval <= Js.TIMEOUT_MAX ->
  reachable minInterval clock0 c -> invariant minInterval clock0 c.
Proof.
  intros Hmax. induction 1 as [|c c' _ IH Hstep].
  - constructor; simpl; try reflexivity; try lia; try discriminate; auto;
      intros Hne; now destruct Hne.
  - exact (invariant_step _ _ _ _ Hmax IH Hstep).
Qed.

(** C2, as the code has it. With an interval of at most [TIMEOUT_MAX]
    (2^31 - 1 ms, the largest delay of a timer), however the limiter is
    called, any two successive admissions are at least [minIntervalMs] apart
    and [lastRequestTime] is the time of the latest one (each admission sets
    it). When the limiter is created an interval or more after the epoch,
    where [lastRequestTime] starts, the first admission does not wait: a
    limiter that sleeps has granted one. *)
Theorem admissions_spaced (minInterval clock0 : Z) (c : Z * state R) :
  minInterval <= Js.TIMEOUT_MAX ->
  reachable minInterval clock0 c ->
  spaced minInterval (admissions (snd c)) /\
  lastRequestTime (fields (snd c)) = last (admissions (snd c)) 0 /\
  (lastRequestTime (new R minInterval) + minInterval <= clock0 ->
   forall r due, running (snd c) = Sleeping r due -> admissions (snd c) <> []).
Proof.
  intros Hmax Hreach.
  destruct (invariant_reachable _ _ _ Hmax Hreach) as [Hi Hs Hl Hpast Hg Hd Hc Hf].
  split; [exact Hs|]. split; [exact Hl|].
  intros Hfar r due Hrun Hnil. simpl in Hfar.
  rewrite (Hf Hfar Hnil) in Hrun. discriminate Hrun.
Qed.

End RateLimiterFacts.

(** ** The client *)

Section ClientFacts.
Import Runtime Client.

Variable JSON_parse : string -> string + Js.value.

Local Abbreviation run_facts := (Client.run_facts JSON_parse).

Lemma setTimeout_delay_ge ms : ms <= Js.TIMEOUT_MAX -> ms <= Js.setTimeout_delay ms.
Proof.
  intros Hmax. unfold Js.setTimeout_delay.
  destruct (Z.leb_spec 1 ms); cbn [andb]; [|lia].
  destruct (Z.leb_spec ms Js.TIMEOUT_MAX); lia.
Qed.

(** The body of [queryDevicesWithRetry], read as an equation. *)
Lemma queryDevicesWithRetry_body snList attempt e w :
  queryDevicesWithRetry JSON_parse snList attempt e w =
  match queryDevices JSON_parse snList e w with
  | (None, w1) => (None, w1)
  | (Some (inr response), w1) => (Some (inr response), w1)
  | (Some (inl error), w1) =>
      if retryable error && (attempt <? MAX_RETRIES)%nat
      then queryDevicesWithRetry JSON_parse snList (attempt + 1) e
             (backed_off attempt error e w1)
      else (Some (inl error), w1)
  end.
Proof.
  funelim (queryDevicesWithRetry JSON_parse snList attempt e w);
    unfold queryDevices, bind, Date_now, http_request, ret; simpl.
  - rewrite H. reflexivity.
  - rewrite H. reflexivity.
  - rewrite H1, Hretry. unfold backed_off. simpl.
    rewrite <- app_assoc. reflexivity.
  - rewrite H0, e1. reflexivity.
Qed.

Lemma queryDevices_run snList e w :
  queryDevices JSON_parse snList e w =
  (settle JSON_parse (respond e (requests w)),
   {| clock := clock w + Z.of_N (latency e (requests w));
      requests := S (requests w);
      timers := timers w;
      trace := trace w ++ [Sent (clock w) (request_at snList w)];
      limiter := limiter w |}).
Proof. reflexivity. Qed.

Lemma queryDevices_facts snList attempt e w :
  run_facts snList attempt e w
    (settle JSON_parse (respond e (requests w)),
     {| clock := clock w + Z.of_N (latency e (requests w));
        requests := S (requests w); timers := timers w;
        trace := trace w ++ [Sent (clock w) (request_at snList w)];
        limiter := limiter w |}).
Proof.
  constructor; cbn [fst snd requests timers clock trace limiter].
  - exists 1%nat. repeat split; try lia.
    now replace (requests w + 1 - 1)%nat with (requests w) by lia.
  - reflexivity.
  - lia.
  - exists []. split; [reflexivity|constructor].
Qed.

Lemma queryDevicesWithRetry_facts n : forall snList attempt e w,
  (MAX_RETRIES - attempt <= n)%nat ->
  run_facts snList attempt e w (queryDevicesWithRetry JSON_parse snList attempt e w).
Proof.
  induction n as [|n IH]; intros snList attempt e w Hn;
    rewrite queryDevicesWithRetry_body, queryDevices_run;
    pose proof (queryDevices_facts snList attempt e w) as Hdone;
    destruct (settle JSON_parse (respond e (requests w))) as [[error|response]|] eqn:E;
    try exact Hdone;
    destruct (retryable error && (attempt <? MAX_RETRIES)%nat) eqn:Hretry;
    try exact Hdone;
    apply andb_prop in Hretry; destruct Hretry as [_ Hlt];
    apply Nat.ltb_lt in Hlt; [exfalso; lia|].
  clear Hdone.
  match goal with
  | |- run_facts _ _ _ _ (queryDevicesWithRetry _ _ _ _ ?w2) =>
      destruct (IH snList (attempt + 1)%nat e w2 ltac:(lia))
        as [(k & Hk & Hk1 & Hkmax & Htimers & Hres) Hlim Hclock (rest & Htrace & Hrest)]
  end.
  pose proof (setTimeout_delay_positive (RETRY_DELAY_MS * Z.of_nat attempt)) as Hdelay.
  constructor; cbn [fst snd requests timers clock trace limiter backed_off] in *.
  - exists (S k).
    split; [rewrite Hk; lia|]. split; [lia|].
    split; [unfold MAX_RETRIES in *; lia|].
    split; [rewrite Htimers; lia|].
    rewrite Hres. f_equal. f_equal. lia.
  - exact Hlim.
  - lia.
  - eexists. split.
    + rewrite Htrace, <- !app_assoc. simpl. reflexivity.
    + repeat constructor; try discriminate. exact Hrest.
Qed.

Lemma settle_retryable outcome :
  match settle JSON_parse outcome with
  | Some (inl error) => retryable error = transient outcome
  | _ => transient outcome = false
  end.
Proof.
  destruct outcome as [status body|m|]; cbn [settle transient]; try reflexivity.
  destruct (Z.eqb_spec status 200) as [->|H200].
  - destruct (JSON_parse body); reflexivity.
  - destruct (Z.eqb_spec status 429) as [->|H429]; reflexivity.
Qed.

Lemma settle_pending outcome :
  settle JSON_parse outcome = None <-> outcome = NeverEnds.
Proof.
  destruct outcome as [status body|m|]; cbn [settle]; split; try discriminate;
    try reflexivity.
  destruct (status =? 200); [destruct (JSON_parse body)|destruct (status =? 429)];
    discriminate.
Qed.

(** How a call of [queryDevicesWithRetry] unfolds, as a whole: the requests
    it sends, what they were answered, why it stopped, and the sleeps
    between them. *)
Lemma queryDevicesWithRetry_shape n : forall snList attempt e w,
  (MAX_RETRIES - attempt <= n)%nat ->
  let run := queryDevicesWithRetry JSON_parse snList attempt e w in
  exists k added,
    (1 <= k)%nat /\
    requests (snd run) = (requests w + k)%nat /\
    (forall j, (j < k - 1)%nat ->
               exists error,
                 settle JSON_parse (respond e (requests w + j)%nat) = Some (inl error) /\
                 retryable error = true) /\
    fst run = settle JSON_parse (respond e (requests w + k - 1)%nat) /\
    (transient (respond e (requests w + k - 1)%nat) = false \/
     (MAX_RETRIES <= attempt + (k - 1))%nat) /\
    trace (snd run) = trace w ++ added /\
    sent added = k /\
    slept added = map (fun j => RETRY_DELAY_MS * Z.of_nat j) (seq attempt (k - 1)) /\
    clock w + fold_right Z.add 0 (slept added) <= clock (snd run).
Proof.
  induction n as [|n IH]; intros snList attempt e w Hn run; subst run;
    rewrite queryDevicesWithRetry_body, queryDevices_run;
    pose proof (settle_retryable (respond e (requests w))) as Hsettle;
    assert (Hone : forall c : option (Js.completion Js.value),
               c = settle JSON_parse (respond e (requests w)) ->
               (transient (respond e (requests w)) = false \/
                (MAX_RETRIES <= attempt)%nat) ->
               exists k added,
                 (1 <= k)%nat /\
                 S (requests w) = (requests w + k)%nat /\
                 (forall j, (j < k - 1)%nat ->
                    exists error,
                      settle JSON_parse (respond e (requests w + j)%nat)
                      = Some (inl error) /\
                      retryable error = true) /\
                 c = settle JSON_parse (respond e (requests w + k - 1)%nat) /\
                 (transient (respond e (requests w + k - 1)%nat) = false \/
                  (MAX_RETRIES <= attempt + (k - 1))%nat) /\
                 trace w ++ [Sent (clock w) (request_at snList w)] = trace w ++ added /\
                 sent added = k /\
                 slept added
                 = map (fun j => RETRY_DELAY_MS * Z.of_nat j) (seq attempt (k - 1)) /\
                 clock w + fold_right Z.add 0 (slept added)
                 <= clock w + Z.of_N (latency e (requests w)))
      by (intros c -> Hwhy; exists 1%nat, [Sent (clock w) (request_at snList w)];
          replace (requests w + 1 - 1)%nat with (requests w) by lia;
          cbn [Nat.sub seq map slept flat_map app fold_right sent List.filter List.length];
          rewrite Nat.add_0_r;
          repeat split; try lia; try assumption; intros j Hj; lia);
    destruct (settle JSON_parse (respond e (requests w))) as [[error|response]|] eqn:E;
    cbn [fst snd requests trace clock];
    try (apply Hone; [reflexivity|left; exact Hsettle]);
    destruct (retryable error) eqn:Hr; cbn [andb];
    try (apply Hone; [reflexivity|left; congruence]);
    destruct (Nat.ltb_spec attempt MAX_RETRIES) as [Hlt|Hge];
    try (apply Hone; [reflexivity|right; exact Hge]);
    [exfalso; lia|].
  clear Hone.
  match goal with
  | |- context [queryDevicesWithRetry _ _ _ _ ?w2] =>
      destruct (IH snList (attempt + 1)%nat e w2 ltac:(lia))
        as (k & added & Hk1 & Hreq & Hearlier & Hres & Hwhy & Htrace & Hsent
            & Hslept & Hclock)
  end.
  cbn [requests trace clock backed_off] in *.
  exists (S k),
    (Sent (clock w) (request_at snList w)
     :: RetryLogged attempt (message error)
     :: Slept (RETRY_DELAY_MS * Z.of_nat attempt) :: added).
  split; [lia|]. split; [rewrite Hreq; lia|]. split; [|split; [|split; [|split;
    [|split; [|split]]]]].
  - intros [|j] Hj.
    + exists error. rewrite Nat.add_0_r. split; [exact E | exact Hr].
    + destruct (Hearlier j ltac:(lia)) as (error' & He' & Hr').
      exists error'. split; [|exact Hr'].
      now replace (requests w + S j)%nat with (S (requests w) + j)%nat by lia.
  - rewrite Hres. f_equal. f_equal. lia.
  - replace (requests w + S k - 1)%nat with (S (requests w) + k - 1)%nat by lia.
    destruct Hwhy as [Hwhy|Hwhy]; [left; exact Hwhy|right; lia].
  - rewrite Htrace, <- !app_assoc. reflexivity.
  - unfold sent in *. cbn [List.filter List.length]. now rewrite Hsent.
  - unfold slept in *. cbn [flat_map app]. rewrite Hslept.
    replace (S k - 1)%nat with (S (k - 1)) by lia. cbn [seq map].
    now rewrite Nat.add_1_r.
  - unfold slept in *. cbn [flat_map app fold_right].
    pose proof (setTimeout_delay_ge (RETRY_DELAY_MS * Z.of_nat attempt)) as Hdelay.
    unfold RETRY_DELAY_MS, MAX_RETRIES, Js.TIMEOUT_MAX in *. lia.
Qed.

(** C4, as the code has it. [queryDevices] makes one request and, when the
    response is read to its end or the request emits an error, settles its
    promise as the classification rules say: 200 with a body that parses is
    a success with the parsed data, 200 with another body a [ParseError]
    that is not retryable, 429 a retryable [RateLimited], 500 and above a
    retryable [ServerError], another 4xx a [ClientError] that is not
    retryable, and an error of the connection that the request emits a
    retryable [NetworkError]. When neither happens the promise is never
    settled. *)
Theorem queryDevices_classification snList e w (c : Spec.classified) :
  Spec.classify JSON_parse (respond e (requests w)) = Some c ->
  requests (snd (queryDevices JSON_parse snList e w)) = S (requests w) /\
  match respond e (requests w) with
  | NeverEnds => fst (queryDevices JSON_parse snList e w) = None
  | _ => option_map Spec.abstract (fst (queryDevices JSON_parse snList e w))
         = Some (Some c)
  end.
Proof.
  intros Hspec. rewrite queryDevices_run. cbn [fst snd requests].
  split; [reflexivity|].
  destruct (respond e (requests w)) as [status body|m|];
    cbn [Spec.classify settle] in *.
  - destruct (status =? 200) eqn:E200.
    + destruct (JSON_parse body) as [m|v]; injection Hspec as <-; reflexivity.
    + destruct (status =? 429) eqn:E429; [injection Hspec as <-; reflexivity|].
      cbn [Spec.abstract Spec.kind_of retryable option_map].
      rewrite E429.
      destruct (500 <=? status) eqn:E500; [injection Hspec as <-; reflexivity|].
      destruct ((400 <=? status) && (status <=? 499)); [|discriminate].
      injection Hspec as <-. reflexivity.
  - injection Hspec as <-. reflexivity.
  - reflexivity.
Qed.

(** C5. A retryable failure of the attempt [attempt], below [MAX_RETRIES],
    is followed by one log line, one sleep of [RETRY_DELAY_MS * attempt] and
    then the call for the attempt [attempt + 1], which sends one request at
    once; a failure that is not retryable, or one of the last attempt, is
    thrown as it is, and a success is returned as it is, without another
    request; a request that is never settled leaves the call pending. From
    the attempt 1 on at most [MAX_RETRIES] requests are sent. *)
Theorem retry_policy snList attempt e w :
  let run := queryDevicesWithRetry JSON_parse snList attempt e w in
  let w1 := snd (queryDevices JSON_parse snList e w) in
  match fst (queryDevices JSON_parse snList e w) with
  | Some (inr response) => run = (Some (inr response), w1)
  | Some (inl error) =>
      if retryable error then
        if (attempt <? MAX_RETRIES)%nat then
          let w2 := backed_off attempt error e w1 in
          run = queryDevicesWithRetry JSON_parse snList (attempt + 1) e w2 /\
          clock w1 + RETRY_DELAY_MS * Z.of_nat attempt <= clock w2 /\
          exists rest,
            trace (snd run) =
            trace w1 ++ [RetryLogged attempt (message error);
                         Slept (RETRY_DELAY_MS * Z.of_nat attempt);
                         Sent (clock w2) (request_at snList w2)] ++ rest
        else run = (Some (inl error), w1)
      else run = (Some (inl error), w1)
  | None => run = (None, w1)
  end /\
  (requests (snd run) <= requests w + Nat.max 1 (MAX_RETRIES + 1 - attempt))%nat.
Proof.
  intros run w1. split.
  - subst run w1. rewrite queryDevicesWithRetry_body, queryDevices_run.
    cbn [fst snd].
    destruct (settle JSON_parse (respond e (requests w))) as [[error|response]|];
      [|reflexivity|reflexivity].
    destruct (retryable error); [|reflexivity].
    destruct (Nat.ltb_spec attempt MAX_RETRIES) as [Hlt|Hge]; [|reflexivity].
    cbn [andb]. split; [reflexivity|]. split.
    + unfold backed_off. cbn [clock].
      pose proof (setTimeout_delay_ge (RETRY_DELAY_MS * Z.of_nat attempt)) as Hdelay.
      unfold RETRY_DELAY_MS, MAX_RETRIES, Js.TIMEOUT_MAX in *. lia.
    + match goal with
      | |- context [queryDevicesWithRetry _ _ _ _ ?w2] =>
          destruct (queryDevicesWithRetry_facts MAX_RETRIES snList
                      (attempt + 1)%nat e w2 ltac:(lia))
            as [_ _ _ (rest & Htrace & _)]
      end.
      exists rest. rewrite Htrace. unfold backed_off at 1. cbn [trace].
      rewrite <- !app_assoc. reflexivity.
  - destruct (queryDevicesWithRetry_facts MAX_RETRIES snList attempt e w ltac:(lia))
      as [(k & Hk & _ & Hmax & _) _ _ _].
    subst run. rewrite Hk. lia.
Qed.

End ClientFacts.

(** ** The driver *)

Section IndexFacts.
Import Runtime Client Index.

Variable JSON_parse : string -> string + Js.value.

Local Abbreviation item_run := (Index.item_run JSON_parse).
Local Abbreviation run_items := (Index.run_items JSON_parse).

Lemma skipn_length_app {X : Type} (l l' : list X) :
  skipn (List.length l) (l ++ l') = l'.
Proof. induction l; simpl; auto. Qed.

Lemma item_run_cases batch e w :
  item_run batch e w =
  match fst (queryDevicesWithRetry JSON_parse batch 1 e (granted batch e w)) with
  | Some c =>
      (Some c,
       released batch
         (snd (queryDevicesWithRetry JSON_parse batch 1 e (granted batch e w))))
  | None =>
      (None, snd (queryDevicesWithRetry JSON_parse batch 1 e (granted batch e w)))
  end.
Proof.
  unfold Index.item_run.
  destruct (queryDevicesWithRetry JSON_parse batch 1 e (granted batch e w))
    as [[c|] w1]; reflexivity.
Qed.

(** What a pass of a batch does to the limiter: one admission, at the time
    [grant_time]; the limiter is idle again once the promise of the batch is
    settled, and stays at the request otherwise. *)
Lemma item_run_limiter batch e w :
  RateLimiter.admissions (limiter (snd (item_run batch e w)))
  = RateLimiter.admissions (limiter w) ++ [grant_time e w] /\
  RateLimiter.lastRequestTime (RateLimiter.fields (limiter (snd (item_run batch e w))))
  = grant_time e w /\
  RateLimiter.minIntervalMs (RateLimiter.fields (limiter (snd (item_run batch e w))))
  = RateLimiter.minIntervalMs (RateLimiter.fields (limiter w)) /\
  grant_time e w <= clock (snd (item_run batch e w)) /\
  match fst (item_run batch e w) with
  | Some _ =>
      idle (limiter (snd (item_run batch e w))) /\
      RateLimiter.settled (limiter (snd (item_run batch e w)))
      = RateLimiter.settled (limiter w) ++ [batch]
  | None =>
      RateLimiter.running (limiter (snd (item_run batch e w)))
      = RateLimiter.Requesting batch /\
      RateLimiter.settled (limiter (snd (item_run batch e w)))
      = RateLimiter.settled (limiter w)
  end.
Proof.
  rewrite item_run_cases.
  pose proof (queryDevicesWithRetry_facts JSON_parse MAX_RETRIES batch 1 e
                (granted batch e w) ltac:(lia)) as [_ Hlim Hclock _].
  destruct (queryDevicesWithRetry JSON_parse batch 1 e (granted batch e w))
    as [[c|] w1];
    cbn [fst snd] in *; unfold released, idle;
    cbn [limiter clock RateLimiter.admissions RateLimiter.fields
         RateLimiter.with_isProcessing RateLimiter.lastRequestTime
         RateLimiter.minIntervalMs RateLimiter.running RateLimiter.settled
         RateLimiter.queue RateLimiter.isProcessing];
    rewrite Hlim; unfold granted in *;
    cbn [limiter clock RateLimiter.admissions RateLimiter.fields
         RateLimiter.lastRequestTime RateLimiter.minIntervalMs
         RateLimiter.running RateLimiter.settled RateLimiter.queue] in *;
    repeat split; auto.
Qed.

Lemma item_run_idle batch e w c :
  fst (item_run batch e w) = Some c -> idle (limiter (snd (item_run batch e w))).
Proof.
  intros Hc. destruct (item_run_limiter batch e w) as (_ & _ & _ & _ & Hcase).
  rewrite Hc in Hcase. apply Hcase.
Qed.

(** The requests of a pass of a batch: from one to [MAX_RETRIES] of them, and
    the promise of the batch stays pending exactly when the last one never
    ends. *)
Lemma item_run_requests batch e w :
  exists k,
    (1 <= k <= MAX_RETRIES)%nat /\
    requests (snd (item_run batch e w)) = (requests w + k)%nat /\
    fst (item_run batch e w) = settle JSON_parse (respond e (requests w + k - 1)%nat).
Proof.
  rewrite item_run_cases.
  pose proof (queryDevicesWithRetry_facts JSON_parse MAX_RETRIES batch 1 e
                (granted batch e w) ltac:(lia))
    as [(k & Hk & Hk1 & Hkmax & _ & Hres) _ _ _].
  change (requests (granted batch e w)) with (requests w) in *.
  exists k. split; [unfold MAX_RETRIES in *; lia|].
  destruct (queryDevicesWithRetry JSON_parse batch 1 e (granted batch e w))
    as [[c|] w1]; cbn [fst snd released requests] in *; auto.
Qed.

(** [await rateLimiter.enqueue(...)] on an idle limiter settles with what the
    request function of the batch returns or throws, and stays pending when
    the promise of that function does. *)
Lemma enqueue_await_idle batch e w :
  idle (limiter w) ->
  enqueue_await JSON_parse batch e w = item_run batch e w.
Proof.
  intros (Hrun & Hq & Hp).
  unfold Index.item_run.
  pose proof (queryDevicesWithRetry_facts JSON_parse MAX_RETRIES batch 1 e
                (granted batch e w) ltac:(lia)) as [_ Hlim _ _].
  destruct w as [clk reqs tms tr [[mi lrt q ip] rn adm stl]].
  cbn in Hrun, Hq, Hp. subst rn q ip.
  unfold granted, grant_time, RateLimiter.waitTime in *.
  unfold enqueue_await, bind, Date_now, limiter_turn, get_limiter, ret.
  unfold RateLimiter.enqueue, RateLimiter.processQueue, RateLimiter.iterate,
    RateLimiter.waitTime, RateLimiter.grant.
  pose proof (setTimeout_delay_positive (Z.max 0 (mi - (clk - lrt)))) as Hdelay.
  fold (RateLimiter.sleep (Z.max 0 (mi - (clk - lrt)))) in Hdelay.
  cbn -[queryDevicesWithRetry Z.max Z.ltb Z.add Z.sub Z.of_N Nat.mul
        RateLimiter.sleep] in *.
  destruct (0 <? Z.max 0 (mi - (clk - lrt))) eqn:Hwait;
    cbn -[queryDevicesWithRetry Z.max Z.ltb Z.add Z.sub Z.of_N RateLimiter.sleep] in *;
    unfold bind, get_limiter, timer_fires, limiter_turn, Date_now, ret,
      RateLimiter.timer_fired, RateLimiter.grant;
    cbn -[queryDevicesWithRetry Z.max Z.ltb Z.add Z.sub Z.of_N
          RateLimiter.request_settled RateLimiter.sleep] in *;
    rewrite ?skipn_all, ?skipn_length_app, ?app_nil_r;
    cbn -[queryDevicesWithRetry Z.max Z.ltb Z.add Z.sub Z.of_N
          RateLimiter.request_settled RateLimiter.sleep] in *;
    try replace (Z.max clk (clk + RateLimiter.sleep (Z.max 0 (mi - (clk - lrt)))
                            + Z.of_N (lateness e tms)))
      with (clk + RateLimiter.sleep (Z.max 0 (mi - (clk - lrt)))
            + Z.of_N (lateness e tms)) in * by lia;
    match type of Hlim with
    | context [queryDevicesWithRetry _ _ _ _ ?W] =>
        match goal with
        | |- context [queryDevicesWithRetry _ _ _ _ ?w'] => change w' with W
        end
    end;
    destruct (queryDevicesWithRetry JSON_parse batch 1 e _) as [[c|] w1] eqn:E;
    cbn [snd fst] in *; try reflexivity;
    unfold released, RateLimiter.request_settled, RateLimiter.iterate;
    rewrite Hlim; cbn -[Z.max Z.ltb Z.add Z.sub Z.of_N RateLimiter.sleep];
    rewrite ?skipn_all, ?app_nil_r; reflexivity.
Qed.

(** One iteration of the loop of [main]. *)
Lemma main_loop_step batch rest i results errors e w :
  idle (limiter w) ->
  main_loop JSON_parse (batch :: rest) i results errors e w =
  match fst (item_run batch e w) with
  | None => (None, snd (item_run batch e w))
  | Some c =>
      match log_of c with
      | ToResults data =>
          main_loop JSON_parse rest (S i) (results ++ [data]) errors e
            (snd (item_run batch e w))
      | ToErrors error =>
          main_loop JSON_parse rest (S i) results
            (errors ++ [failed_batch (i + 1) batch error]) e
            (snd (item_run batch e w))
      | Unrecorded =>
          main_loop JSON_parse rest (S i) results errors e (snd (item_run batch e w))
      end
  end.
Proof.
  intros Hidle. cbn [main_loop]. unfold bind at 1.
  rewrite (enqueue_await_idle batch e w Hidle).
  destruct (item_run batch e w) as [[[error|response]|] w1]; cbn [fst snd log_of];
    try reflexivity.
  destruct (Js.Get response "data") as [error|[data|]]; try reflexivity.
  destruct (Js.truthy data); reflexivity.
Qed.

(** The batches that went through: a prefix of the batches, in order; the
    limiter is idle when all did, and stays at the request of the first one
    whose promise stays pending, one of whose requests never ends. *)
Lemma run_items_facts batches : forall e w,
  idle (limiter w) ->
  (List.length (fst (run_items batches e w)) <= List.length batches)%nat /\
  RateLimiter.settled (limiter (snd (run_items batches e w)))
  = RateLimiter.settled (limiter w)
    ++ firstn (List.length (fst (run_items batches e w))) batches /\
  (List.length (fst (run_items batches e w)) = List.length batches ->
   idle (limiter (snd (run_items batches e w)))) /\
  ((List.length (fst (run_items batches e w)) < List.length batches)%nat ->
   RateLimiter.running (limiter (snd (run_items batches e w)))
   = RateLimiter.Requesting
       (nth (List.length (fst (run_items batches e w))) batches []) /\
   exists k, (requests w <= k < requests (snd (run_items batches e w)))%nat /\
             respond e k = NeverEnds).
Proof.
  induction batches as [|batch rest IH]; intros e w Hidle; cbn [Index.run_items].
  - cbn [fst snd List.length firstn]. rewrite app_nil_r.
    split; [lia|]. split; [reflexivity|]. split; [auto|lia].
  - destruct (item_run_limiter batch e w) as (_ & _ & _ & _ & Hcase).
    destruct (item_run_requests batch e w) as (k & Hk & Hreq & Hres).
    destruct (Index.item_run JSON_parse batch e w) as [[c|] w1]; cbn [fst snd] in *.
    + destruct Hcase as (Hidle1 & Hset1).
      destruct (IH e w1 Hidle1) as (Hlen & Hset & Hdone & Hstuck).
      destruct (Index.run_items JSON_parse rest e w1) as [cs w2]. cbn [fst snd] in *.
      cbn [List.length firstn nth].
      split; [lia|]. split; [rewrite Hset, Hset1, <- app_assoc; reflexivity|].
      split; [intros Hall; apply Hdone; lia|].
      intros Hless. destruct (Hstuck ltac:(lia)) as (Hrun & k' & Hk' & Hnever).
      split; [exact Hrun|]. exists k'. split; [lia | exact Hnever].
    + destruct Hcase as (Hrun & Hset1).
      cbn [List.length firstn nth]. rewrite app_nil_r.
      split; [lia|]. split; [exact Hset1|]. split; [discriminate|].
      intros _. split; [exact Hrun|].
      exists (requests w + k - 1)%nat. split; [lia|].
      apply (settle_pending JSON_parse). now rewrite <- Hres.
Qed.

(** When every request ends, every batch goes through. *)
Lemma run_items_all batches e w :
  idle (limiter w) ->
  (forall k, respond e k <> NeverEnds) ->
  List.length (fst (run_items batches e w)) = List.length batches.
Proof.
  intros Hidle Hends.
  destruct (run_items_facts batches e w Hidle) as (Hlen & _ & _ & Hstuck).
  destruct (Nat.eq_dec (List.length (fst (run_items batches e w)))
              (List.length batches)) as [Heq|Hne]; [exact Heq|].
  destruct (Hstuck ltac:(lia)) as (_ & k & _ & Hnever).
  now destruct (Hends k).
Qed.

(** One admission for each batch that reached the limiter, the batches that
    went through and the one that is stuck, and from one to [MAX_RETRIES]
    requests for each. *)
Lemma run_items_counts batches : forall e w,
  idle (limiter w) ->
  List.length (RateLimiter.admissions (limiter (snd (run_items batches e w))))
  = (List.length (RateLimiter.admissions (limiter w))
     + Nat.min (S (List.length (fst (run_items batches e w)))) (List.length batches))%nat /\
  (requests w
   + Nat.min (S (List.length (fst (run_items batches e w)))) (List.length batches)
   <= requests (snd (run_items batches e w))
   <= requests w
      + MAX_RETRIES
        * Nat.min (S (List.length (fst (run_items batches e w)))) (List.length batches))%nat.
Proof.
  induction batches as [|batch rest IH]; intros e w Hidle; cbn [Index.run_items].
  - cbn. lia.
  - destruct (item_run_limiter batch e w) as (Hadm & _ & _ & _ & Hcase).
    destruct (item_run_requests batch e w) as (k & Hk & Hreq & _).
    apply (f_equal (@List.length Z)) in Hadm. rewrite length_app in Hadm.
    cbn [List.length] in Hadm.
    destruct (Index.item_run JSON_parse batch e w) as [[c|] w1]; cbn [fst snd] in *.
    + destruct Hcase as (Hidle1 & _).
      specialize (IH e w1 Hidle1).
      destruct (run_items_facts rest e w1 Hidle1) as (Hlen & _).
      destruct (Index.run_items JSON_parse rest e w1) as [cs w2]. cbn [fst snd] in *.
      cbn [List.length]. unfold MAX_RETRIES in *. lia.
    + cbn [List.length]. unfold MAX_RETRIES in *. lia.
Qed.

(** The loop of [main] from an idle limiter: it comes to its end when every
    batch goes through, and what it adds to [results] and [errors] is read
    off the settlements in order; it stays at the first batch whose promise
    stays pending. *)
Lemma main_loop_run batches : forall i results errors e w,
  idle (limiter w) ->
  main_loop JSON_parse batches i results errors e w =
  ((if (List.length (fst (run_items batches e w)) =? List.length batches)%nat
    then Some (results ++ results_of (fst (run_items batches e w)),
               errors ++ errors_of i batches (fst (run_items batches e w)))
    else None),
   snd (run_items batches e w)).
Proof.
  induction batches as [|batch rest IH]; intros i results errors e w Hidle.
  - cbn. rewrite !app_nil_r. reflexivity.
  - rewrite (main_loop_step batch rest i results errors e w Hidle).
    pose proof (item_run_idle batch e w) as Hidle1.
    cbn [Index.run_items].
    destruct (Index.item_run JSON_parse batch e w) as [[c|] w1]; cbn [fst snd] in *;
      [|reflexivity].
    specialize (Hidle1 c eq_refl).
    destruct (Index.run_items JSON_parse rest e w1) as [cs w2] eqn:Erest.
    cbn [fst snd results_of errors_of List.length Nat.eqb].
    destruct (log_of c) as [data|error|]; rewrite (IH _ _ _ e w1 Hidle1), Erest;
      cbn [fst snd]; destruct (List.length cs =? List.length rest)%nat;
      rewrite <- ?app_assoc; reflexivity.
Qed.

Lemma logs_length_le cs : forall i batches,
  (List.length (results_of cs) + List.length (errors_of i batches cs)
   <= List.length cs)%nat.
Proof.
  induction cs as [|c cs IH]; intros i [|batch rest]; cbn [results_of errors_of];
    try (destruct (log_of c)); cbn [List.length];
    try specialize (IH (S i) rest); try specialize (IH i []);
    try (destruct cs; cbn in *); lia.
Qed.

(** C3, as the code has it. Whatever the batches and the service, the
    batches go through the limiter in the order of submission, each once at
    most; [results] and [errors] are read off the settlements of the batches
    in that order, each settlement giving one entry to one of them or none:
    its [data] to [results] when the response has a truthy [data], the batch
    and the error to [errors] when the call threw, and nothing when the
    response has no [data]. The loop comes to its end when every request
    ends, and then every batch went through; a batch one of whose requests
    never ends stops it there: the limiter stays at that batch and the loop
    returns nothing. *)
Theorem main_loop_partition batches e startTime :
  let w := Index.start startTime in
  let cs := fst (run_items batches e w) in
  let run := main_loop JSON_parse batches 0 [] [] e w in
  fst run = (if (List.length cs =? List.length batches)%nat
             then Some (results_of cs, errors_of 0 batches cs) else None) /\
  (List.length cs <= List.length batches)%nat /\
  RateLimiter.settled (limiter (snd run)) = firstn (List.length cs) batches /\
  (List.length (results_of cs) + List.length (errors_of 0 batches cs)
   <= List.length cs)%nat /\
  ((forall k, respond e k <> NeverEnds) -> List.length cs = List.length batches) /\
  ((List.length cs < List.length batches)%nat ->
   RateLimiter.running (limiter (snd run))
   = RateLimiter.Requesting (nth (List.length cs) batches []) /\
   exists k, (k < requests (snd run))%nat /\ respond e k = NeverEnds).
Proof.
  intros w cs run.
  assert (Hidle : idle (limiter w)) by (repeat split).
  destruct (run_items_facts batches e w Hidle) as (Hlen & Hset & _ & Hstuck).
  pose proof (main_loop_run batches 0 [] [] e w Hidle) as Hrun.
  cbn [app] in Hrun. fold cs in Hrun, Hlen, Hset, Hstuck. fold run in Hrun.
  rewrite Hrun. cbn [fst snd].
  split; [reflexivity|]. split; [exact Hlen|]. split; [exact Hset|].
  split; [apply logs_length_le|].
  split; [intros Hends; exact (run_items_all batches e w Hidle Hends)|].
  intros Hless. destruct (Hstuck Hless) as (Hrunning & k & Hk & Hnever).
  split; [exact Hrunning|]. exists k. split; [lia | exact Hnever].
Qed.

(** When [queryDevicesWithRetry] throws from the attempt 1 on: after [k]
    retryable failures, [k] below [MAX_RETRIES], a failure that is not
    retryable or is the one of the last attempt. *)
Lemma queryDevicesWithRetry_throws batch e w error :
  fst (queryDevicesWithRetry JSON_parse batch 1 e w) = Some (inl error) <->
  exists k,
    (k < MAX_RETRIES)%nat /\
    (forall j, (j < k)%nat ->
               exists error',
                 settle JSON_parse (respond e (requests w + j)%nat) = Some (inl error') /\
                 retryable error' = true) /\
    settle JSON_parse (respond e (requests w + k)%nat) = Some (inl error) /\
    (retryable error = false \/ k = (MAX_RETRIES - 1)%nat).
Proof.
  split.
  - intros Hthrown.
    destruct (queryDevicesWithRetry_shape JSON_parse MAX_RETRIES batch 1 e w
                ltac:(lia))
      as (k & added & Hk1 & Hreq & Hearlier & Hres & Hwhy & _).
    destruct (queryDevicesWithRetry_facts JSON_parse MAX_RETRIES batch 1 e w
                ltac:(lia)) as [(k' & Hk' & _ & Hmax & _) _ _ _].
    assert (k' = k) by lia. subst k'.
    exists (k - 1)%nat. split; [unfold MAX_RETRIES in *; lia|].
    split; [exact Hearlier|].
    replace (requests w + (k - 1))%nat with (requests w + k - 1)%nat by lia.
    rewrite <- Hres. split; [exact Hthrown|].
    pose proof (settle_retryable JSON_parse (respond e (requests w + k - 1)%nat))
      as Hsettle.
    rewrite <- Hres, Hthrown in Hsettle.
    destruct Hwhy as [Hwhy|Hwhy]; [left; congruence|right].
    unfold MAX_RETRIES in *. lia.
  - intros (k & Hk & Hearlier & Hlast & Hwhy).
    assert (Hgo : forall n attempt w',
               (n <= k)%nat -> attempt = (1 + (k - n))%nat ->
               requests w' = (requests w + (k - n))%nat ->
               fst (queryDevicesWithRetry JSON_parse batch attempt e w')
               = Some (inl error)).
    { induction n as [|n IH]; intros attempt w' Hn -> Hreq;
        rewrite queryDevicesWithRetry_body, queryDevices_run, Hreq.
      - rewrite Nat.sub_0_r, Hlast.
        destruct Hwhy as [-> | ->]; [reflexivity|].
        cbn [MAX_RETRIES Nat.sub Nat.add Nat.ltb Nat.leb]. now rewrite andb_false_r.
      - destruct (Hearlier (k - S n)%nat ltac:(lia)) as (error' & -> & ->).
        replace (1 + (k - S n) <? MAX_RETRIES)%nat with true
          by (symmetry; apply Nat.ltb_lt; lia).
        cbn [andb]. apply IH; [lia|lia|].
        cbn [backed_off requests]. lia. }
    apply (Hgo k 1%nat w); [lia|lia|lia].
Qed.

(** C6, as the code has it. When the batch fails, that is, after any number
    of retryable failures below [MAX_RETRIES], with a failure that is not
    retryable or with the failure of the last attempt (so: three retryable
    failures, a first failure that is not retryable, or one after retryable
    ones), [queryDevicesWithRetry] throws the last failure as it is, and the
    loop of [main] goes on with one more entry in [errors]: the number of
    the batch, its devices, and the message of that failure, or the failure
    itself when its message is empty. *)
Theorem failure_recorded batch rest i results errors e w error :
  idle (limiter w) ->
  (exists k,
     (k < MAX_RETRIES)%nat /\
     (forall j, (j < k)%nat ->
                exists error',
                  settle JSON_parse (respond e (requests w + j)%nat)
                  = Some (inl error') /\
                  retryable error' = true) /\
     settle JSON_parse (respond e (requests w + k)%nat) = Some (inl error) /\
     (retryable error = false \/ k = (MAX_RETRIES - 1)%nat)) ->
  fst (queryDevicesWithRetry JSON_parse batch 1 e (granted batch e w))
  = Some (inl error) /\
  main_loop JSON_parse (batch :: rest) i results errors e w =
  main_loop JSON_parse rest (S i) results
    (errors ++ [{| Index.batch := i + 1; devices := batch;
                   error := if String.eqb (message error) EmptyString
                            then inr error else inl (message error) |}])
    e (snd (item_run batch e w)).
Proof.
  intros Hidle Hfail.
  assert (Hthrown : fst (queryDevicesWithRetry JSON_parse batch 1 e (granted batch e w))
                    = Some (inl error)).
  { apply queryDevicesWithRetry_throws. exact Hfail. }
  split; [exact Hthrown|].
  rewrite (main_loop_step batch rest i results errors e w Hidle).
  rewrite item_run_cases, Hthrown. reflexivity.
Qed.

End IndexFacts.

(** ** The driver on the scenarios *)

(** C1, on the code. One batch whose first attempt is answered 429 and a
    second batch: three requests are sent and two admissions are granted, one
    for each batch and none for the retry; the request of the second batch
    leaves 10 ms after the retry, inside the interval of 1100 ms. In general
    the limiter grants one admission for each batch that reaches it, which
    covers from one to [MAX_RETRIES] requests, and every batch reaches it
    when every request ends. *)
Theorem retry_without_admission :
  (let run := Index.main_loop Scenario.JSON_parse [["SN-000"]; ["SN-001"]] 0 [] []
                Scenario.limited_once (Index.start Scenario.T0) in
   fst run = Some ([Js.JArr []; Js.JArr []], []) /\
   Scenario.sent_times (Runtime.trace (snd run))
   = [Scenario.T0; Scenario.T0 + 2010; Scenario.T0 + 2020] /\
   Scenario.granted_times (Runtime.trace (snd run))
   = [Scenario.T0; Scenario.T0 + 2020] /\
   RateLimiter.admissions (Runtime.limiter (snd run))
   = [Scenario.T0; Scenario.T0 + 2020]) /\
  forall JSON_parse batches e startTime,
    let run := Index.main_loop JSON_parse batches 0 [] [] e (Index.start startTime) in
    let admitted := List.length (RateLimiter.admissions (Runtime.limiter (snd run))) in
    (admitted <= List.length batches)%nat /\
    (admitted <= Runtime.requests (snd run) <= Client.MAX_RETRIES * admitted)%nat /\
    ((forall k, Runtime.respond e k <> Runtime.NeverEnds) ->
     admitted = List.length batches /\
     (List.length batches <= Runtime.requests (snd run)
      <= Client.MAX_RETRIES * List.length batches)%nat).
Proof.
  split; [vm_compute; repeat split|].
  intros JSON_parse batches e startTime run admitted.
  assert (Hidle : Index.idle (Runtime.limiter (Index.start startTime)))
    by (repeat split).
  subst admitted run. rewrite (main_loop_run JSON_parse batches 0 [] [] e _ Hidle).
  cbn [snd].
  destruct (run_items_counts JSON_parse batches e (Index.start startTime) Hidle)
    as (Hadm & Hreqs).
  destruct (run_items_facts JSON_parse batches e (Index.start startTime) Hidle)
    as (Hlen & _).
  rewrite Hadm. cbn [Index.start Runtime.limiter RateLimiter.initial
                     RateLimiter.admissions Runtime.requests List.length Nat.add] in *.
  split; [lia|]. split; [unfold Client.MAX_RETRIES in *; lia|].
  intros Hends.
  rewrite (run_items_all JSON_parse batches e (Index.start startTime) Hidle Hends) in *.
  unfold Client.MAX_RETRIES in *. lia.
Qed.

(** C3, as stated, fails when a response has no [data]: the batch is sent
    once and settled, and it is recorded neither in [results] nor in
    [errors]. *)
Lemma batch_in_neither_log :
  let run := Index.main_loop Scenario.JSON_parse [["SN-000"]] 0 [] []
               Scenario.without_data (Index.start Scenario.T0) in
  fst run = Some ([], []) /\
  RateLimiter.settled (Runtime.limiter (snd run)) = [["SN-000"]] /\
  Scenario.sent_times (Runtime.trace (snd run)) = [Scenario.T0] /\
  (List.length (@nil Js.value) + List.length (@nil Index.error_entry))%nat
  <> List.length [["SN-000"]].
Proof. vm_compute. repeat split. discriminate. Qed.

(** C3 on a service that cuts its first response off: the first batch is
    sent and its promise is never settled, the limiter stays at it, the
    second batch is never sent, and the loop returns nothing. *)
Example main_loop_stuck :
  let run := Index.main_loop Scenario.JSON_parse [["SN-000"]; ["SN-001"]] 0 [] []
               Scenario.cut_off_once (Index.start Scenario.T0) in
  fst run = None /\
  RateLimiter.running (Runtime.limiter (snd run)) = RateLimiter.Requesting ["SN-000"] /\
  RateLimiter.settled (Runtime.limiter (snd run)) = [] /\
  Runtime.requests (snd run) = 1%nat.
Proof. vm_compute. repeat split. Qed.

(** C4, as stated, fails for a connection that is lost after the head of the
    response, or a server that does not answer: the rules classify this
    failure of the connection as a retryable [NetworkError], and
    [queryDevices] gives no failure at all, its promise is never settled, so
    that [queryDevicesWithRetry] does not retry. *)
Lemma connection_lost_unreported :
  Spec.classify Scenario.JSON_parse (Runtime.respond Scenario.cut_off_once 0)
  = Some (Spec.Failure Spec.NetworkError true) /\
  fst (Client.queryDevices Scenario.JSON_parse ["SN-000"] Scenario.cut_off_once
         (Index.start Scenario.T0)) = None /\
  option_map Spec.abstract
    (fst (Client.queryDevices Scenario.JSON_parse ["SN-000"] Scenario.cut_off_once
            (Index.start Scenario.T0)))
  <> Some (Some (Spec.Failure Spec.NetworkError true)) /\
  Runtime.requests
    (snd (Client.queryDevicesWithRetry Scenario.JSON_parse ["SN-000"] 1
            Scenario.cut_off_once (Index.start Scenario.T0))) = 1%nat.
Proof. vm_compute. repeat split. discriminate. Qed.

(** C6, as stated, fails for the kind of the failure: a batch that fails
    three times with 500 and a batch that fails once with 404 leave the same
    entry in [errors] when the bodies are the same, though the failures that
    [queryDevicesWithRetry] threw differ in their code and in their kind. *)
Lemma kind_not_recorded :
  let run500 := Index.main_loop Scenario.JSON_parse [["SN-000"]] 0 [] []
                  Scenario.always_500 (Index.start Scenario.T0) in
  let run404 := Index.main_loop Scenario.JSON_parse [["SN-000"]] 0 [] []
                  Scenario.always_404 (Index.start Scenario.T0) in
  let thrown500 := fst (Client.queryDevicesWithRetry Scenario.JSON_parse ["SN-000"] 1
                          Scenario.always_500 (Index.start Scenario.T0)) in
  let thrown404 := fst (Client.queryDevicesWithRetry Scenario.JSON_parse ["SN-000"] 1
                          Scenario.always_404 (Index.start Scenario.T0)) in
  fst run500 = Some ([], [{| Index.batch := 1; Index.devices := ["SN-000"];
                             Index.error := inl "oops"%string |}]) /\
  fst run404 = fst run500 /\
  thrown500 = Some (inl (Js.Rejection (Js.StatusCode 500) "oops" true)) /\
  thrown404 = Some (inl (Js.Rejection (Js.StatusCode 404) "oops" false)) /\
  option_map Spec.abstract thrown500 = Some (Some (Spec.Failure Spec.ServerError true)) /\
  option_map Spec.abstract thrown404 = Some (Some (Spec.Failure Spec.ClientError false)).
Proof. vm_compute. repeat split. Qed.

(** C6 on a batch that fails with 500 and then with 404: the second failure
    is not retryable, it is thrown and recorded. *)
Lemma failure_recorded_witness :
  Index.main_loop Scenario.JSON_parse [["SN-000"]] 0 [] []
    Scenario.busy_then_missing (Index.start Scenario.T0)
  = Index.main_loop Scenario.JSON_parse [] 1 []
      [{| Index.batch := 1; Index.devices := ["SN-000"];
          Index.error := inl "gone"%string |}]
      Scenario.busy_then_missing
      (snd (Index.item_run Scenario.JSON_parse ["SN-000"] Scenario.busy_then_missing
              (Index.start Scenario.T0))).
Proof.
  apply (failure_recorded Scenario.JSON_parse ["SN-000"] [] 0 [] []
           Scenario.busy_then_missing (Index.start Scenario.T0)
           (Js.Rejection (Js.StatusCode 404) "gone" false)).
  - repeat split.
  - exists 1%nat. split; [unfold Client.MAX_RETRIES; lia|].
    split; [|split; [reflexivity|left; reflexivity]].
    intros j Hj. assert (j = 0%nat) by lia. subst j.
    exists (Js.Rejection (Js.StatusCode 500) "oops" true). split; reflexivity.
Defined.

(** C4 on the six kinds of outcome that settle the promise. *)
Lemma queryDevices_classification_witness :
  let answered (outcome : Runtime.http_outcome) :=
    option_map Spec.abstract
      (fst (Client.queryDevices Scenario.JSON_parse ["SN-000"]
              (Scenario.service (fun _ => outcome)) (Index.start Scenario.T0))) in
  answered (Runtime.Response 200 Scenario.body_with_data)
  = Some (Some (Spec.Success (Js.JObj [("data"%string, Js.JArr [])]))) /\
  answered (Runtime.Response 200 "<html>")
  = Some (Some (Spec.Failure Spec.ParseError false)) /\
  answered (Runtime.Response 429 EmptyString)
  = Some (Some (Spec.Failure Spec.RateLimited true)) /\
  answered (Runtime.Response 503 "busy")
  = Some (Some (Spec.Failure Spec.ServerError true)) /\
  answered (Runtime.Response 401 "denied")
  = Some (Some (Spec.Failure Spec.ClientError false)) /\
  answered (Runtime.RequestError "connect ECONNREFUSED")
  = Some (Some (Spec.Failure Spec.NetworkError true)).
Proof.
  intros answered. unfold answered.
  assert (Hrule : forall outcome c,
             Spec.classify Scenario.JSON_parse outcome = Some c ->
             match outcome with
             | Runtime.NeverEnds => True
             | _ =>
                 option_map Spec.abstract
                   (fst (Client.queryDevices Scenario.JSON_parse ["SN-000"]
                           (Scenario.service (fun _ => outcome))
                           (Index.start Scenario.T0))) = Some (Some c)
             end).
  { intros outcome c Hspec.
    pose proof (proj2 (queryDevices_classification Scenario.JSON_parse ["SN-000"]
                         (Scenario.service (fun _ => outcome))
                         (Index.start Scenario.T0) c Hspec)) as Hcode.
    cbn [Runtime.respond Scenario.service] in Hcode.
    destruct outcome; [exact Hcode | exact Hcode | exact I]. }
  split; [exact (Hrule (Runtime.Response 200 Scenario.body_with_data) _ eq_refl)|].
  split; [exact (Hrule (Runtime.Response 200 "<html>") _ eq_refl)|].
  split; [exact (Hrule (Runtime.Response 429 EmptyString) _ eq_refl)|].
  split; [exact (Hrule (Runtime.Response 503 "busy") _ eq_refl)|].
  split; [exact (Hrule (Runtime.Response 401 "denied") _ eq_refl)|].
  exact (Hrule (Runtime.RequestError "connect ECONNREFUSED") _ eq_refl).
Defined.

Lemma reachable_limiter_sleeping :
  RateLimiter.reachable 1100 Scenario.T0 Scenario.limiter_sleeping.
Proof.
  unfold Scenario.limiter_sleeping.
  eapply RateLimiter.reachable_step
    with (c := (Scenario.T0 + 50,
                RateLimiter.request_settled (Scenario.T0 + 50) (Scenario.T0 + 50)
                  (RateLimiter.enqueue 1%nat Scenario.T0 Scenario.T0
                     (RateLimiter.initial nat 1100)))).
  - eapply RateLimiter.reachable_step
      with (c := (Scenario.T0, RateLimiter.enqueue 1%nat Scenario.T0 Scenario.T0
                                 (RateLimiter.initial nat 1100))).
    + eapply RateLimiter.reachable_step; [apply RateLimiter.reachable_initial|].
      apply RateLimiter.step_enqueue; unfold Scenario.T0; lia.
    + apply RateLimiter.step_settled with (r := 1%nat);
        [reflexivity | unfold Scenario.T0; lia ..].
  - apply RateLimiter.step_enqueue; unfold Scenario.T0; lia.
Qed.

(** C2 on two calls 60 ms apart: the first is granted at once, the second
    sleeps and is granted 1101 ms after the first. *)
Lemma admissions_spaced_witness :
  let s3 := snd Scenario.limiter_sleeping in
  let s4 := RateLimiter.timer_fired (Scenario.T0 + 1101) s3 in
  RateLimiter.admissions s4 = [Scenario.T0; Scenario.T0 + 1101] /\
  RateLimiter.spaced 1100 (RateLimiter.admissions s4) /\
  RateLimiter.lastRequestTime (RateLimiter.fields s4)
  = last (RateLimiter.admissions s4) 0 /\
  RateLimiter.running s3 = RateLimiter.Sleeping 2%nat (Scenario.T0 + 1100) /\
  RateLimiter.admissions s3 <> [].
Proof.
  intros s3 s4.
  assert (Hmax : 1100 <= Js.TIMEOUT_MAX) by (unfold Js.TIMEOUT_MAX; lia).
  assert (Hreach : RateLimiter.reachable 1100 Scenario.T0 (Scenario.T0 + 1101, s4)).
  { eapply RateLimiter.reachable_step with (c := Scenario.limiter_sleeping);
      [exact reachable_limiter_sleeping|].
    apply RateLimiter.step_timer with (r := 2%nat) (due := Scenario.T0 + 1100);
      [reflexivity | unfold Scenario.T0; lia ..]. }
  split; [reflexivity|].
  destruct (admissions_spaced 1100 Scenario.T0 _ Hmax Hreach) as (Hspaced & Hlast & _).
  split; [exact Hspaced|]. split; [exact Hlast|].
  split; [reflexivity|].
  destruct (admissions_spaced 1100 Scenario.T0 _ Hmax reachable_limiter_sleeping)
    as (_ & _ & Hfirst).
  apply (Hfirst ltac:(unfold Scenario.T0; simpl; lia) 2%nat (Scenario.T0 + 1100)).
  reflexivity.
Defined.

(** C2, as stated, fails for an interval beyond the delays of the timers: the
    limiter asks for a sleep of 2999999940 ms, the timer is set to 1 ms, and
    the second admission is granted 62 ms after the first. *)
Lemma interval_beyond_timers :
  RateLimiter.reachable Scenario.long_interval Scenario.T0 Scenario.limiter_overflowed /\
  RateLimiter.admissions (snd Scenario.limiter_overflowed)
  = [Scenario.T0; Scenario.T0 + 62] /\
  ~ RateLimiter.spaced Scenario.long_interval
      (RateLimiter.admissions (snd Scenario.limiter_overflowed)).
Proof.
  split; [|split; [reflexivity|]].
  - unfold Scenario.limiter_overflowed.
    eapply RateLimiter.reachable_step
      with (c := (Scenario.T0 + 60,
                  RateLimiter.enqueue 2%nat (Scenario.T0 + 60) (Scenario.T0 + 60)
                    (RateLimiter.request_settled (Scenario.T0 + 50) (Scenario.T0 + 50)
                       (RateLimiter.enqueue 1%nat Scenario.T0 Scenario.T0
                          (RateLimiter.initial nat Scenario.long_interval))))).
    + eapply RateLimiter.reachable_step
        with (c := (Scenario.T0 + 50,
                    RateLimiter.request_settled (Scenario.T0 + 50) (Scenario.T0 + 50)
                      (RateLimiter.enqueue 1%nat Scenario.T0 Scenario.T0
                         (RateLimiter.initial nat Scenario.long_interval)))).
      * eapply RateLimiter.reachable_step
          with (c := (Scenario.T0,
                      RateLimiter.enqueue 1%nat Scenario.T0 Scenario.T0
                        (RateLimiter.initial nat Scenario.long_interval))).
        -- eapply RateLimiter.reachable_step; [apply RateLimiter.reachable_initial|].
           apply RateLimiter.step_enqueue; unfold Scenario.T0; lia.
        -- apply RateLimiter.step_settled with (r := 1%nat);
             [reflexivity | unfold Scenario.T0; lia ..].
      * apply RateLimiter.step_enqueue; unfold Scenario.T0; lia.
    + apply RateLimiter.step_timer with (r := 2%nat) (due := Scenario.T0 + 61);
        [reflexivity | unfold Scenario.T0; lia ..].
  - intros [Hgap _]. vm_compute in Hgap. now apply Hgap.
Qed.

(** ** The signature *)

Section SignatureFacts.
Import Signature.

Lemma hex_digit_lower (n : Z) :
  0 <= n < 16 -> is_lower_hex (hex_digit n) = true.
Proof.
  intros Hn.
  assert (Hall : forallb (fun k => is_lower_hex (hex_digit (Z.of_nat k)))
                         (seq 0 16) = true) by reflexivity.
  rewrite forallb_forall in Hall.
  rewrite <- (Z2Nat.id n) by lia.
  apply Hall, in_seq. lia.
Qed.

Lemma digest_hex_lower (bytes : list Z) :
  all_chars is_lower_hex (digest_hex bytes) = true.
Proof.
  induction bytes as [|b rest IH]; [reflexivity|].
  cbn [digest_hex all_chars].
  rewrite !hex_digit_lower, IH by (apply Z.mod_pos_bound; lia).
  reflexivity.
Qed.

Lemma digest_hex_length (bytes : list Z) :
  String.length (digest_hex bytes) = (2 * List.length bytes)%nat.
Proof.
  induction bytes as [|b rest IH]; [reflexivity|].
  cbn [digest_hex String.length List.length]. rewrite IH. lia.
Qed.

Lemma le_bytes_length n : forall z, List.length (Md5.le_bytes n z) = n.
Proof. induction n as [|n IH]; intros z; cbn; [reflexivity|]. now rewrite IH. Qed.

(** A digest has 16 bytes, whatever the message. *)
Lemma digest_length (msg : list Z) : List.length (Md5.digest msg) = 16%nat.
Proof.
  unfold Md5.digest.
  destruct (fold_left Md5.compress _ Md5.init) as [[[a b] c] d].
  rewrite !length_app, !le_bytes_length. reflexivity.
Qed.

(** C7. [generateSignature] is the MD5 digest of the path, the token and the
    timestamp, concatenated in this order, as 32 lowercase hexadecimal
    digits; it is a function of the path and of the timestamp as it prints,
    so that a timestamp gives the same token as a number and as the string
    that the number prints as (the digits of a time in milliseconds, and
    ["1152921504606847000"] for 2^60); and [queryDevices] signs the path of
    the endpoint, not the URL. *)
Theorem generateSignature_md5 (path : string) (t : timestamp) :
  generateSignature path t
  = digest_hex (Md5.digest (update (path ++ TOKEN ++ ToString t)%string)) /\
  String.length (generateSignature path t) = 32%nat /\
  all_chars is_lower_hex (generateSignature path t) = true /\
  generateSignature path t = generateSignature path (TsString (ToString t)) /\
  generateSignature "/device/real/query" (TsNumber 1700000000000)
  = "192e6a35c45c5f24d5103c72c4ba77e9" /\
  ToString (TsNumber 1152921504606846976) = "1152921504606847000" /\
  forall JSON_parse snList e w,
    exists req,
      Runtime.trace (snd (Client.queryDevices JSON_parse snList e w))
      = Runtime.trace w ++ [Runtime.Sent (Runtime.clock w) req] /\
      Runtime.path req = "/device/real/query" /\
      Runtime.signature_header req
      = md5_hex ("/device/real/query" ++ "interview_token_123"
                 ++ Runtime.timestamp_header req)%string.
Proof.
  split; [reflexivity|]. split; [|split; [|split; [|split; [|split]]]].
  - unfold generateSignature, md5_hex.
    rewrite digest_hex_length, digest_length. reflexivity.
  - apply digest_hex_lower.
  - reflexivity.
  - vm_compute. reflexivity.
  - vm_compute. reflexivity.
  - intros JSON_parse snList e w. rewrite queryDevices_run. cbn [snd Runtime.trace].
    eexists. split; [reflexivity|]. split; reflexivity.
Qed.

End SignatureFacts.

(* ===================================================================== *)
(** * More on the code *)
(* ===================================================================== *)

(** ** Serial numbers and batches *)

Section SerialNumbers.
Import DeviceManager.

Lemma generateSerialNumbers_loop_map todo : forall i acc,
  generateSerialNumbers_loop todo i acc = acc ++ map serialNumber (seq i todo).
Proof.
  induction todo as [|todo IH]; intros i acc; cbn [generateSerialNumbers_loop seq map].
  - now rewrite app_nil_r.
  - rewrite IH, <- app_assoc. reflexivity.
Qed.

Lemma uint_of_padded k : forall d,
  option_map Nat.of_uint
    (NilEmpty.uint_of_string
       (Js.repeat_char "0" k ++ NilEmpty.string_of_uint d)%string)
  = Some (Nat.of_uint d).
Proof.
  induction k as [|k IH]; intros d; cbn [Js.repeat_char String.append].
  - now rewrite NilEmpty.usu.
  - cbn [NilEmpty.uint_of_string]. specialize (IH d).
    destruct (NilEmpty.uint_of_string
                (Js.repeat_char "0" k ++ NilEmpty.string_of_uint d)%string)
      as [d'|]; [|discriminate].
    cbn in IH |- *. injection IH as IH. f_equal.
    unfold Nat.of_uint in *. cbn [Nat.of_uint_acc]. exact IH.
Qed.

(** The index can be read back from the serial number. *)
Lemma serial_index_serialNumber i : serial_index (serialNumber i) = Some i.
Proof.
  unfold serialNumber, serial_index, Js.padStart, Js.String_of_nat.
  cbn [String.append]. rewrite uint_of_padded.
  now rewrite DecimalNat.Unsigned.of_to.
Qed.

Lemma NoDup_map_retract {X Y : Type} (f : X -> Y) (g : Y -> option X) (l : list X) :
  (forall x, g (f x) = Some x) -> NoDup l -> NoDup (map f l).
Proof.
  intros Hgf. induction 1 as [|x l Hx _ IH]; cbn [map]; constructor; [|exact IH].
  intros Hin. apply in_map_iff in Hin. destruct Hin as (y & Hy & Hin).
  apply (f_equal g) in Hy. rewrite !Hgf in Hy. injection Hy as ->. now apply Hx.
Qed.

(** [generateSerialNumbers(count)] has [count] elements, the one at the index
    [i] is ["SN-"] followed by [i] in decimal, padded with zeros to three
    digits (so that every index below 1000 gives six characters), and no two
    elements are equal. *)
Theorem generateSerialNumbers_distinct (count : nat) :
  generateSerialNumbers count = map serialNumber (seq 0 count) /\
  List.length (generateSerialNumbers count) = count /\
  NoDup (generateSerialNumbers count) /\
  map serial_index (generateSerialNumbers count) = map Some (seq 0 count) /\
  forallb (fun sn => (String.length sn =? 6)%nat)
          (generateSerialNumbers (Nat.min count 1000)) = true.
Proof.
  assert (Hmap : forall n, generateSerialNumbers n = map serialNumber (seq 0 n)).
  { intros n. unfold generateSerialNumbers.
    now rewrite generateSerialNumbers_loop_map. }
  split; [apply Hmap|]. split; [|split; [|split]].
  - now rewrite Hmap, length_map, length_seq.
  - rewrite Hmap. apply (NoDup_map_retract _ serial_index).
    + exact serial_index_serialNumber.
    + apply seq_NoDup.
  - rewrite Hmap, map_map. apply map_ext. exact serial_index_serialNumber.
  - assert (Hall : forallb (fun sn => (String.length sn =? 6)%nat)
                     (map serialNumber (seq 0 1000)) = true) by (vm_compute; reflexivity).
    rewrite forallb_forall in Hall. rewrite Hmap. apply forallb_forall.
    intros sn Hin. apply Hall. apply in_map_iff in Hin.
    destruct Hin as (i & <- & Hi). apply in_map, in_seq. apply in_seq in Hi. lia.
Qed.

Lemma well_sized_count {A : Type} (b : nat) (batches : list (list A)) :
  (1 <= b)%nat -> well_sized b batches ->
  List.length batches = ((List.length (List.concat batches) + b - 1) / b)%nat.
Proof.
  intros Hb. induction batches as [|x rest IH]; intros [Hall Hfull].
  - cbn. symmetry. apply Nat.div_small. lia.
  - inversion Hall as [|? ? Hx Hrest]; subst.
    cbn [List.concat List.length]. rewrite length_app.
    destruct rest as [|y rest'].
    + cbn [List.concat List.length]. rewrite Nat.add_0_r.
      replace (List.length x + b - 1)%nat with (1 * b + (List.length x - 1))%nat by lia.
      rewrite Nat.div_add_l by lia. rewrite Nat.div_small by lia. reflexivity.
    + assert (Hxb : List.length x = b) by (apply (Hfull 0%nat); cbn; lia).
      rewrite IH.
      * rewrite Hxb.
        replace (b + List.length (List.concat (y :: rest')) + b - 1)%nat
          with (1 * b + (List.length (List.concat (y :: rest')) + b - 1))%nat by lia.
        rewrite Nat.div_add_l by lia. reflexivity.
      * split; [exact Hrest|]. intros k Hk. apply (Hfull (S k)). cbn in *. lia.
Qed.

(** With any positive batch size [createBatches] returns the consecutive
    slices of the input: their concatenation is the input, none is empty, all
    but the last have the batch size, and there are [ceil(length / size)] of
    them. *)
Theorem createBatches_positive {A : Type} (array : list A) (batchSize : nat) :
  (1 <= batchSize)%nat ->
  exists batches,
    createBatches array batchSize = Some batches /\
    List.concat batches = array /\
    well_sized batchSize batches /\
    List.length batches = ((List.length array + batchSize - 1) / batchSize)%nat.
Proof.
  intros Hb.
  destruct (createBatches_spec array batchSize Hb) as (batches & Hrun & Hcat & Hsz).
  exists batches. split; [exact Hrun|]. split; [exact Hcat|]. split; [exact Hsz|].
  rewrite <- Hcat. now apply well_sized_count.
Qed.

(** Seven elements in batches of three. *)
Lemma createBatches_positive_witness :
  exists batches,
    createBatches [1; 2; 3; 4; 5; 6; 7] 3 = Some batches /\
    List.length batches = 3%nat.
Proof.
  destruct (createBatches_positive [1; 2; 3; 4; 5; 6; 7] 3 ltac:(lia))
    as (batches & Hrun & _ & _ & Hlen).
  exists batches. split; [exact Hrun | exact Hlen].
Defined.

(** An empty array gives no batch, whatever the batch size; with the batch
    size 0 the loop over an array that is not empty never ends: the index
    stays at 0 and no number of iterations is enough. *)
Theorem createBatches_zero {A : Type} :
  (forall batchSize, createBatches (@nil A) batchSize = Some []) /\
  (forall fuel (a : A) array batches,
     createBatches_loop fuel (a :: array) 0 0 batches = None).
Proof.
  split; [reflexivity|].
  induction fuel as [|fuel IH]; intros a array batches; [reflexivity|].
  cbn [createBatches_loop List.length Nat.ltb Nat.leb Nat.add]. apply IH.
Qed.

End SerialNumbers.

(** ** Aggregation and null devices *)

Section AggregationEdges.
Import DeviceManager.

Variable Number_toString_exponential : float -> string.

Lemma status_is_not_null s d :
  is_null d = false -> status_is s d = inr (has_status s d).
Proof.
  destruct d as [| | | | |fields]; try discriminate; intros _; try reflexivity.
  unfold status_is, has_status. cbn [Js.Get].
  destruct (Js.lookup "status" fields) as [[| | |s'| |]|]; reflexivity.
Qed.

Lemma filter_status_null s (ds : list Js.value) :
  existsb is_null ds = true ->
  Js.filter (status_is s) ds
  = inl (Js.ErrorObject "Cannot read properties of null (reading 'status')").
Proof.
  induction ds as [|d ds IH]; [discriminate|].
  cbn [existsb Js.filter]. destruct (is_null d) eqn:Hd.
  - destruct d; try discriminate. reflexivity.
  - cbn [orb]. intros Hrest. rewrite (status_is_not_null s d Hd), (IH Hrest).
    reflexivity.
Qed.

Lemma filter_status_total s (ds : list Js.value) :
  existsb is_null ds = false ->
  Js.filter (status_is s) ds = inr (List.filter (has_status s) ds).
Proof.
  induction ds as [|d ds IH]; [reflexivity|].
  cbn [existsb Js.filter List.filter]. intros Hnone.
  apply orb_false_elim in Hnone. destruct Hnone as [Hd Hrest].
  rewrite (status_is_not_null s d Hd), (IH Hrest). reflexivity.
Qed.

Lemma value_nested_ind (P : Js.value -> Prop) :
  P Js.JNull -> (forall b, P (Js.JBool b)) -> (forall x, P (Js.JNum x)) ->
  (forall s, P (Js.JStr s)) ->
  (forall elems, Forall P elems -> P (Js.JArr elems)) ->
  (forall fields, P (Js.JObj fields)) ->
  forall v, P v.
Proof.
  intros Hnull Hbool Hnum Hstr Harr Hobj. fix IH 1.
  intros [|b|x|str|elems|fields];
    [exact Hnull|apply Hbool|apply Hnum|apply Hstr| |apply Hobj].
  apply Harr. induction elems as [|elem rest IHrest]; constructor; [apply IH|exact IHrest].
Qed.

Lemma join_thrown (print : Js.value -> Js.completion string) (E : Js.thrown)
  (elems : list Js.value) :
  Forall (fun elem => forall e, print elem = inl e -> e = E) elems ->
  forall e, Js.join print elems = inl e -> e = E.
Proof.
  induction 1 as [|elem rest Helem _ IHrest]; intros e; cbn [Js.join];
    [discriminate|].
  destruct (print elem) as [e1|s1]; [intros [= <-]; now apply Helem|].
  destruct rest as [|elem2 rest2]; [discriminate|].
  destruct (Js.join print (elem2 :: rest2)) as [e2|s2];
    [intros [= <-]; now apply IHrest|discriminate].
Qed.

(** The only error of [ToString] on a value of [JSON.parse]. *)
Lemma ToString_thrown v : forall e,
  Js.ToString v = inl e ->
  e = Js.ErrorObject "Cannot convert object to primitive value".
Proof.
  induction v as [|b|x|str|elems Helems|fields] using value_nested_ind;
    cbn [Js.ToString]; intros e; try discriminate.
  - apply join_thrown. eapply Forall_impl; [|exact Helems].
    intros elem Helem e' Hthrown. destruct elem; try discriminate Hthrown;
      now apply Helem.
  - destruct (Js.lookup "toString" fields); [intros [= <-]; reflexivity|discriminate].
Qed.

Lemma add_power_cases init d :
  is_null d = false ->
  add_power init d
  = if power_unreadable d
    then inl (Js.ErrorObject "Cannot convert object to primitive value")
    else inr (init + power_of d)%float.
Proof.
  unfold add_power, power_unreadable, power_of, Js.parseFloat.
  destruct d as [| | | | |fields]; try discriminate; intros _; cbn [Js.Get];
    try reflexivity.
  destruct (Js.lookup "power" fields) as [v|]; [|reflexivity].
  pose proof (ToString_thrown v) as Hthrown.
  destruct (Js.ToString v) as [e|str]; [|reflexivity].
  now rewrite (Hthrown e eq_refl).
Qed.

Lemma reduce_power_unreadable (ds : list Js.value) : forall init,
  existsb is_null ds = false ->
  existsb power_unreadable ds = true ->
  Js.reduce add_power ds init
  = inl (Js.ErrorObject "Cannot convert object to primitive value").
Proof.
  induction ds as [|d ds IH]; intros init Hnone Hsome; [discriminate|].
  cbn [existsb Js.reduce] in *. apply orb_false_elim in Hnone.
  destruct Hnone as [Hd Hrest]. rewrite (add_power_cases init d Hd).
  destruct (power_unreadable d); [reflexivity|]. now apply IH.
Qed.

Lemma reduce_power_total (ds : list Js.value) : forall init,
  existsb is_null ds = false ->
  existsb power_unreadable ds = false ->
  Js.reduce add_power ds init
  = inr (fold_left (fun sum d => (sum + power_of d)%float) ds init).
Proof.
  induction ds as [|d ds IH]; intros init Hnone Hall; [reflexivity|].
  cbn [existsb Js.reduce fold_left] in *. apply orb_false_elim in Hnone, Hall.
  destruct Hnone as [Hd Hrest], Hall as [Hp Hps].
  rewrite (add_power_cases init d Hd), Hp. now apply IH.
Qed.

(** [aggregateResults] throws the [TypeError] of reading [status] when one
    of the flattened results is [null]; failing that, it throws the
    [TypeError] of [parseFloat] when the [power] of one of them cannot be
    made a string; otherwise it returns a report whose devices are the
    flattened results, whose total is their number, whose online and offline
    counts are the numbers of records with exactly these statuses, together
    at most the total, and whose total power is the sum, in order, of the
    numbers that their [power] starts with. *)
Theorem aggregateResults_null (now : Z) (results : list Js.value) :
  let flatResults := Js.flat results in
  if existsb is_null flatResults
  then aggregateResults Number_toString_exponential now results
       = inl (Js.ErrorObject "Cannot read properties of null (reading 'status')")
  else if existsb power_unreadable flatResults
  then aggregateResults Number_toString_exponential now results
       = inl (Js.ErrorObject "Cannot convert object to primitive value")
  else exists r,
      aggregateResults Number_toString_exponential now results = inr r /\
      devices r = flatResults /\
      totalDevices (summary r) = List.length flatResults /\
      onlineDevices (summary r)
      = List.length (List.filter (has_status "Online") flatResults) /\
      offlineDevices (summary r)
      = List.length (List.filter (has_status "Offline") flatResults) /\
      (onlineDevices (summary r) + offlineDevices (summary r)
       <= totalDevices (summary r))%nat /\
      totalPowerKW (summary r)
      = (Js.toFixed Number_toString_exponential
           (fold_left (fun sum d => (sum + power_of d)%float) flatResults 0%float) 2
         ++ " kW")%string /\
      generatedAt (summary r) = now.
Proof.
  intros flatResults. unfold aggregateResults. fold flatResults.
  destruct (existsb is_null flatResults) eqn:Hnull.
  - now rewrite (filter_status_null "Online" flatResults Hnull).
  - rewrite !(filter_status_total _ flatResults Hnull).
    destruct (existsb power_unreadable flatResults) eqn:Hpower.
    + now rewrite (reduce_power_unreadable flatResults 0%float Hnull Hpower).
    + rewrite (reduce_power_total flatResults 0%float Hnull Hpower).
      eexists. split; [reflexivity|].
      cbn [devices summary totalDevices onlineDevices offlineDevices generatedAt
           totalPowerKW].
      repeat split. apply filter_disjoint_length. exact status_disjoint.
Qed.

End AggregationEdges.

(** ** More on the client *)

Section ClientEdges.
Import Runtime Client.

Variable JSON_parse : string -> string + Js.value.


(** [queryDevicesWithRetry] goes on exactly as long as the answers are
    retryable failures and attempts are left: every request but the last one
    was answered by a retryable failure, the result is how the last one was
    settled, and the last one either was not answered by a retryable failure
    or was the attempt number [MAX_RETRIES] (or beyond, when the call starts
    there: then it sends one request and never retries). *)
Theorem queryDevicesWithRetry_stops snList attempt e w :
  let run := queryDevicesWithRetry JSON_parse snList attempt e w in
  exists k,
    (1 <= k)%nat /\
    requests (snd run) = (requests w + k)%nat /\
    (forall j, (j < k - 1)%nat -> transient (respond e (requests w + j)%nat) = true) /\
    fst run = settle JSON_parse (respond e (requests w + k - 1)%nat) /\
    (transient (respond e (requests w + k - 1)%nat) = false \/
     (MAX_RETRIES <= attempt + (k - 1))%nat) /\
    ((MAX_RETRIES <= attempt)%nat -> k = 1%nat).
Proof.
  intros run.
  destruct (queryDevicesWithRetry_shape JSON_parse MAX_RETRIES snList attempt e w
              ltac:(lia))
    as (k & added & Hk1 & Hreq & Hearlier & Hres & Hwhy & _).
  destruct (queryDevicesWithRetry_facts JSON_parse MAX_RETRIES snList attempt e w
              ltac:(lia)) as [(k' & Hk' & _ & Hmax & _) _ _ _].
  fold run in Hreq, Hres, Hk'.
  exists k. split; [exact Hk1|]. split; [exact Hreq|]. split; [|split; [exact Hres|split]].
  - intros j Hj. destruct (Hearlier j Hj) as (error & He & Hr).
    pose proof (settle_retryable JSON_parse (respond e (requests w + j)%nat)) as Hs.
    rewrite He in Hs. congruence.
  - exact Hwhy.
  - intros Hge. assert (k' = k) by lia. subst k'. lia.
Qed.

(** The sleeps of a call of [queryDevicesWithRetry]: one between two requests
    and none after the last, of [RETRY_DELAY_MS] times the number of the
    attempt that failed, and the call lasts at least their sum. From the
    attempt 1 on there are at most two of them, 2000 and 4000 ms: the delay
    of [RETRY_DELAY_MS * MAX_RETRIES] is never slept. *)
Theorem queryDevicesWithRetry_backoff snList attempt e w :
  let run := queryDevicesWithRetry JSON_parse snList attempt e w in
  exists k added,
    trace (snd run) = trace w ++ added /\
    sent added = k /\
    slept added = map (fun j => RETRY_DELAY_MS * Z.of_nat j) (seq attempt (k - 1)) /\
    clock w + fold_right Z.add 0 (slept added) <= clock (snd run) /\
    (k <= Nat.max 1 (MAX_RETRIES + 1 - attempt))%nat /\
    ~ In (RETRY_DELAY_MS * Z.of_nat MAX_RETRIES) (slept added).
Proof.
  intros run.
  destruct (queryDevicesWithRetry_shape JSON_parse MAX_RETRIES snList attempt e w
              ltac:(lia))
    as (k & added & Hk1 & Hreq & _ & _ & _ & Htrace & Hsent & Hslept & Hclock).
  destruct (queryDevicesWithRetry_facts JSON_parse MAX_RETRIES snList attempt e w
              ltac:(lia)) as [(k' & Hk' & _ & Hmax & _) _ _ _].
  fold run in Hreq, Htrace, Hclock, Hk'.
  assert (k' = k) by lia. subst k'.
  exists k, added. repeat split; try assumption.
  rewrite Hslept. intros Hin. apply in_map_iff in Hin.
  destruct Hin as (j & Hj & Hin). apply in_seq in Hin.
  unfold RETRY_DELAY_MS, MAX_RETRIES in *. lia.
Qed.

End ClientEdges.

(** ** More on the rate limiter *)

Section RateLimiterOrder.
Import RateLimiter.
Context {R : Type}.

Lemma reachable_after_reachable minInterval clock0 enqueued (c : Z * state R) :
  reachable_after minInterval clock0 enqueued c -> reachable minInterval clock0 c.
Proof.
  induction 1 as [|enq clock s r now now' _ IH H1 H2
                  |enq clock s r due now' _ IH Hrun H1 H2
                  |enq clock s r now now' _ IH Hrun H1 H2].
  - constructor.
  - eapply reachable_step; [exact IH|]. now constructor.
  - eapply reachable_step; [exact IH|]. now apply step_timer with (r := r) (due := due).
  - eapply reachable_step; [exact IH|]. now apply step_settled with (r := r).
Qed.

Lemma reachable_reachable_after minInterval clock0 (c : Z * state R) :
  reachable minInterval clock0 c ->
  exists enqueued, reachable_after minInterval clock0 enqueued c.
Proof.
  induction 1 as [|c c' _ (enq & IH) Hstep].
  - exists []. constructor.
  - destruct Hstep as [clock s r now now' H1 H2 | clock s r due now' Hrun H1 H2
                      | clock s r now now' Hrun H1 H2].
    + exists (enq ++ [r]). now apply after_enqueue with (clock := clock).
    + exists enq. now apply after_timer with (clock := clock) (r := r) (due := due).
    + exists enq. now apply after_settled with (clock := clock) (r := r).
Qed.

(** The loop of [processQueue] from its test on, for a limiter whose guard is
    up and that holds no request in flight. *)
Lemma order_iterate clock0 (s : state R) now now' :
  isProcessing (fields s) = true ->
  List.length (admissions s) = List.length (settled s) ->
  lastRequestTime (fields s) = last (admissions s) 0 ->
  lastRequestTime (fields s) <= Z.max 0 now ->
  clock0 <= now -> now <= now' ->
  order_invariant clock0 (settled s ++ queue (fields s)) (now', iterate now now' s).
Proof.
  intros Hp Hcount Hlatest Hlast Hc Hnow. unfold iterate.
  destruct (queue (fields s)) as [|r q] eqn:Hq.
  - constructor; cbn; try tauto; try congruence; try lia.
  - unfold waitTime. cbn [minIntervalMs lastRequestTime with_queue].
    destruct (Z.ltb_spec 0 (Z.max 0 (minIntervalMs (fields s)
                                     - (now - lastRequestTime (fields s)))))
      as [Hwait|Hnowait].
    + constructor; cbn; try reflexivity; try congruence; try lia; try assumption.
      intros r' due [= _ <-]. exists now.
      split; [lia|]. split; [lia|]. split; [lia|]. split; [lia|].
      f_equal. f_equal. lia.
    + constructor; cbn; try reflexivity; try congruence; try lia.
      * rewrite length_app. cbn. lia.
      * now rewrite last_last.
Qed.

Lemma order_reachable_after minInterval clock0 enqueued (c : Z * state R) :
  reachable_after minInterval clock0 enqueued c ->
  order_invariant clock0 enqueued c /\ minIntervalMs (fields (snd c)) = minInterval.
Proof.
  induction 1 as [|enq clock s r now now' _ IH H1 H2
                  |enq clock s r due now' _ IH Hrun H1 H2
                  |enq clock s r now now' _ IH Hrun H1 H2].
  - split; [|reflexivity]. constructor; cbn; try tauto; try congruence; try lia.
  - destruct IH as [[Hcontent Hidle Hbusy Hcount Hlatest Hdue Hlast Hclock Hnosleep] Hmin];
      cbn [fst snd] in *.
    unfold enqueue, processQueue. cbn [fields isProcessing queue with_queue].
    destruct (isProcessing (fields s)) eqn:Hp; cbn [orb].
    + split; [|exact Hmin].
      constructor; cbn [fst snd fields running admissions settled queue
                        isProcessing minIntervalMs lastRequestTime with_queue
                        in_flight being_requested]; try assumption; try lia.
      * rewrite Hcontent, <- !app_assoc. reflexivity.
      * intros Hrun. destruct (Hidle Hrun) as [_ Hfalse]. congruence.
      * intros _. exact Hp.
      * intros r' due Hsleep.
        destruct (Hdue r' due Hsleep) as (t & Ht0 & Ht & Hpast & Hwait & Heq).
        exists t. repeat split; try assumption; lia.
    + assert (Hrun : running s = Idle).
      { destruct (running s) eqn:E; [reflexivity| |];
          (assert (Hne : running s <> Idle) by congruence);
          rewrite <- E in Hbusy; specialize (Hbusy Hne); congruence. }
      destruct (Hidle Hrun) as [Hq _].
      unfold in_flight, being_requested in *. rewrite Hrun in *. rewrite Hq in *.
      cbn [app List.length] in *. rewrite app_nil_r in Hcontent. subst enq.
      cbn [Nat.eqb].
      match goal with
      | |- order_invariant _ _ (_, iterate _ _ ?s') /\ _ =>
          pose proof (order_iterate clock0 s' now now') as Hit
      end.
      cbn [fields isProcessing queue settled admissions with_isProcessing
           with_queue lastRequestTime] in Hit.
      split; [apply Hit; try reflexivity; try assumption; lia|].
      unfold iterate. cbn [fields queue with_queue with_isProcessing app].
      destruct (0 <? waitTime _ now); cbn; exact Hmin.
  - destruct IH as [[Hcontent Hidle Hbusy Hcount Hlatest Hdue Hlast Hclock Hnosleep] Hmin];
      cbn [fst snd] in *.
    unfold timer_fired. rewrite Hrun.
    unfold in_flight, being_requested in *. rewrite Hrun in *.
    split; [|exact Hmin].
    constructor; cbn; try assumption; try congruence; try lia.
    + intros _. apply Hbusy. discriminate.
    + rewrite length_app. cbn in *. lia.
    + now rewrite last_last.
  - destruct IH as [[Hcontent Hidle Hbusy Hcount Hlatest Hdue Hlast Hclock Hnosleep] Hmin];
      cbn [fst snd] in *.
    unfold request_settled. rewrite Hrun.
    unfold in_flight, being_requested in *. rewrite Hrun in *.
    match goal with
    | |- order_invariant _ _ (_, iterate _ _ ?s') /\ _ =>
        pose proof (order_iterate clock0 s' now now') as Hit
    end.
    cbn [fields isProcessing queue settled admissions lastRequestTime] in Hit.
    split.
    + rewrite Hcontent. rewrite app_assoc. apply Hit; try lia; try assumption.
      * apply Hbusy. discriminate.
      * rewrite length_app. cbn in *. lia.
    + unfold iterate. cbn [fields].
      destruct (queue (fields s)); [exact Hmin|].
      destruct (0 <? waitTime _ now); cbn; exact Hmin.
Qed.

(** The limiter serves the requests in the order of the calls of [enqueue],
    and neither loses nor repeats one: the requests enqueued so far are the
    settled ones, then the one in flight, then the queued ones. *)
Theorem requests_in_order minInterval clock0 enqueued (c : Z * state R) :
  reachable_after minInterval clock0 enqueued c ->
  enqueued = settled (snd c) ++ in_flight (snd c) ++ queue (fields (snd c)).
Proof.
  intros Hreach. apply (order_reachable_after _ _ _ _ Hreach).
Qed.

(** No request is left waiting in the queue of an idle limiter: when no
    activation of [processQueue] is suspended, the queue is empty and
    [isProcessing] is false, so that the next call of [enqueue] starts the
    loop; and while an activation is suspended [isProcessing] is true, so
    that no second loop starts. *)
Theorem queue_never_stranded minInterval clock0 (c : Z * state R) :
  reachable minInterval clock0 c ->
  (running (snd c) = Idle ->
   queue (fields (snd c)) = [] /\ isProcessing (fields (snd c)) = false) /\
  (running (snd c) <> Idle -> isProcessing (fields (snd c)) = true).
Proof.
  intros Hreach. destruct (reachable_reachable_after _ _ _ Hreach) as (enq & Hafter).
  destruct (order_reachable_after _ _ _ _ Hafter) as [[_ Hidle Hbusy _ _ _ _ _ _] _].
  split; assumption.
Qed.

(** Every request gets one admission, granted before its request function is
    called: the admissions are as many as the requests that are settled or
    being requested. *)
Theorem one_admission_per_request minInterval clock0 (c : Z * state R) :
  reachable minInterval clock0 c ->
  List.length (admissions (snd c))
  = (List.length (settled (snd c)) + List.length (being_requested (snd c)))%nat.
Proof.
  intros Hreach. destruct (reachable_reachable_after _ _ _ Hreach) as (enq & Hafter).
  apply (order_reachable_after _ _ _ _ Hafter).
Qed.

(** A sleep of the limiter is due after the delay that [setTimeout] gives
    the timer for what is left of the interval since the latest admission.
    With an interval of at most [TIMEOUT_MAX] (and a clock that is not before
    the epoch) this is exactly one interval after the latest admission: the
    limiter waits no longer than needed; with an interval of 0 or less it
    never sleeps. *)
Theorem sleep_is_exact minInterval clock0 (c : Z * state R) :
  reachable minInterval clock0 c ->
  (forall r due, running (snd c) = Sleeping r due ->
     exists now,
       now <= fst c /\
       0 < last (admissions (snd c)) 0 + minInterval - now /\
       due = now + Js.setTimeout_delay
                     (last (admissions (snd c)) 0 + minInterval - now)) /\
  (minInterval <= Js.TIMEOUT_MAX -> 0 <= clock0 ->
   forall r due, running (snd c) = Sleeping r due ->
                 due = last (admissions (snd c)) 0 + minInterval) /\
  (minInterval <= 0 -> 0 <= clock0 ->
   forall r due, running (snd c) <> Sleeping r due).
Proof.
  intros Hreach. destruct (reachable_reachable_after _ _ _ Hreach) as (enq & Hafter).
  destruct (order_reachable_after _ _ _ _ Hafter)
    as [[_ _ _ _ Hlatest Hdue _ _ Hnosleep] Hmin].
  rewrite Hmin, Hlatest in *. split; [|split].
  - intros r due Hsleep.
    destruct (Hdue r due Hsleep) as (now & _ & Hnow & _ & Hwait & Heq).
    exists now. split; [exact Hnow|]. split; [exact Hwait | exact Heq].
  - intros Hmax Hepoch r due Hsleep.
    destruct (Hdue r due Hsleep) as (now & Hnow0 & _ & Hpast & Hwait & ->).
    unfold sleep. rewrite setTimeout_delay_in_range by lia. lia.
  - exact Hnosleep.
Qed.

End RateLimiterOrder.

Lemma limiter_sleeping_after :
  RateLimiter.reachable_after 1100 Scenario.T0 [1; 2]%nat Scenario.limiter_sleeping.
Proof.
  unfold Scenario.limiter_sleeping.
  apply RateLimiter.after_enqueue with (enqueued := [1%nat]) (clock := Scenario.T0 + 50);
    [|unfold Scenario.T0; lia ..].
  apply RateLimiter.after_settled
    with (clock := Scenario.T0) (r := 1%nat); [|reflexivity|unfold Scenario.T0; lia ..].
  apply RateLimiter.after_enqueue with (enqueued := @nil nat) (clock := Scenario.T0);
    [constructor|unfold Scenario.T0; lia ..].
Qed.

Lemma limiter_requesting_after :
  RateLimiter.reachable_after 1100 Scenario.T0 [1; 2; 3]%nat
    Scenario.limiter_requesting.
Proof.
  unfold Scenario.limiter_requesting.
  apply RateLimiter.after_timer
    with (clock := Scenario.T0 + 70) (r := 2%nat) (due := Scenario.T0 + 1100);
    [|reflexivity|unfold Scenario.T0; lia ..].
  apply RateLimiter.after_enqueue
    with (enqueued := [1; 2]%nat) (clock := Scenario.T0 + 60)
         (s := snd Scenario.limiter_sleeping);
    [exact limiter_sleeping_after|unfold Scenario.T0; lia ..].
Qed.

(** Three calls: the first is settled, the second is in flight, the third
    queued. *)
Lemma requests_in_order_witness :
  RateLimiter.settled (snd Scenario.limiter_requesting) = [1%nat] /\
  RateLimiter.in_flight (snd Scenario.limiter_requesting) = [2%nat] /\
  RateLimiter.queue (RateLimiter.fields (snd Scenario.limiter_requesting)) = [3%nat] /\
  [1; 2; 3]%nat
  = RateLimiter.settled (snd Scenario.limiter_requesting)
    ++ RateLimiter.in_flight (snd Scenario.limiter_requesting)
    ++ RateLimiter.queue (RateLimiter.fields (snd Scenario.limiter_requesting)).
Proof.
  split; [reflexivity|]. split; [reflexivity|]. split; [reflexivity|].
  exact (requests_in_order 1100 Scenario.T0 _ _ limiter_requesting_after).
Defined.

(** The sleeping limiter has its guard up. *)
Lemma queue_never_stranded_witness :
  RateLimiter.running (snd Scenario.limiter_sleeping)
  = RateLimiter.Sleeping 2%nat (Scenario.T0 + 1100) /\
  RateLimiter.isProcessing (RateLimiter.fields (snd Scenario.limiter_sleeping)) = true.
Proof.
  split; [reflexivity|].
  apply (queue_never_stranded 1100 Scenario.T0 Scenario.limiter_sleeping
           (reachable_after_reachable _ _ _ _ limiter_sleeping_after)).
  discriminate.
Defined.

(** Two admissions for one request settled and one being requested. *)
Lemma one_admission_per_request_witness :
  List.length (RateLimiter.admissions (snd Scenario.limiter_requesting)) = 2%nat.
Proof.
  exact (one_admission_per_request 1100 Scenario.T0 Scenario.limiter_requesting
           (reachable_after_reachable _ _ _ _ limiter_requesting_after)).
Defined.

(** The sleep of the second call is due 1100 ms after the first admission. *)
Lemma sleep_is_exact_witness :
  Scenario.T0 + 1100
  = last (RateLimiter.admissions (snd Scenario.limiter_sleeping)) 0 + 1100.
Proof.
  apply (proj1 (proj2 (sleep_is_exact 1100 Scenario.T0 Scenario.limiter_sleeping
                         (reachable_after_reachable _ _ _ _ limiter_sleeping_after)))
           ltac:(unfold Js.TIMEOUT_MAX; lia) ltac:(unfold Scenario.T0; lia)
           2%nat (Scenario.T0 + 1100)).
  reflexivity.
Defined.

(** ** Every request is signed *)

Section ClientSigned.
Import Runtime Client.

Variable JSON_parse : string -> string + Js.value.

Lemma request_at_signed snList w :
  signed snList (Sent (clock w) (request_at snList w)).
Proof.
  cbn [signed request_at method path timestamp_header signature_header sn_list].
  split; [reflexivity|]. split; [reflexivity|]. split; [reflexivity|].
  split; [reflexivity|]. unfold Signature.generateSignature, Signature.md5_hex.
  split; [apply digest_hex_lower|]. split; [|reflexivity].
  rewrite digest_hex_length, digest_length. reflexivity.
Qed.

Lemma queryDevicesWithRetry_signed n : forall snList attempt e w,
  (MAX_RETRIES - attempt <= n)%nat ->
  exists added,
    trace (snd (queryDevicesWithRetry JSON_parse snList attempt e w))
    = trace w ++ added /\
    Forall (signed snList) added.
Proof.
  induction n as [|n IH]; intros snList attempt e w Hn;
    rewrite queryDevicesWithRetry_body, queryDevices_run;
    assert (Hone : exists added,
               trace w ++ [Sent (clock w) (request_at snList w)] = trace w ++ added /\
               Forall (signed snList) added)
      by (eexists; split; [reflexivity|];
          constructor; [apply request_at_signed|constructor]);
    destruct (settle JSON_parse (respond e (requests w))) as [[error|response]|];
    cbn [snd trace]; try exact Hone;
    destruct (retryable error && (attempt <? MAX_RETRIES)%nat) eqn:Hretry;
    cbn [snd trace]; try exact Hone;
    apply andb_prop in Hretry; destruct Hretry as [_ Hlt];
    apply Nat.ltb_lt in Hlt; [exfalso; lia|].
  clear Hone.
  match goal with
  | |- context [queryDevicesWithRetry _ _ _ _ ?w2] =>
      destruct (IH snList (attempt + 1)%nat e w2 ltac:(lia)) as (added & Htrace & Hall)
  end.
  cbn [trace backed_off] in Htrace.
  exists (Sent (clock w) (request_at snList w)
          :: RetryLogged attempt (message error)
          :: Slept (RETRY_DELAY_MS * Z.of_nat attempt) :: added).
  split; [rewrite Htrace, <- !app_assoc; reflexivity|].
  constructor; [apply request_at_signed|].
  constructor; [exact I|]. constructor; [exact I|exact Hall].
Qed.

(** Every request of a call of [queryDevicesWithRetry], the first one and
    each retry, is a POST to the end point for the same serial numbers, with
    the time at which it is sent as its timestamp and the MD5 of the end
    point, the token and that timestamp, 32 lowercase hexadecimal digits, as
    its signature: a retry is signed afresh, not with the timestamp of the
    first attempt. *)
Theorem requests_signed snList attempt e w :
  let run := queryDevicesWithRetry JSON_parse snList attempt e w in
  exists added,
    trace (snd run) = trace w ++ added /\
    Forall (signed snList) added /\
    sent added = (requests (snd run) - requests w)%nat /\
    (1 <= sent added)%nat.
Proof.
  intros run.
  destruct (queryDevicesWithRetry_signed MAX_RETRIES snList attempt e w ltac:(lia))
    as (added & Htrace & Hall).
  destruct (queryDevicesWithRetry_shape JSON_parse MAX_RETRIES snList attempt e w
              ltac:(lia))
    as (k & added' & Hk1 & Hreq & _ & _ & _ & Htrace' & Hsent & _).
  fold run in Htrace, Htrace', Hreq.
  assert (added' = added) by (rewrite Htrace in Htrace'; now apply app_inv_head in Htrace').
  subst added'. exists added.
  split; [exact Htrace|]. split; [exact Hall|]. rewrite Hreq, Hsent. lia.
Qed.

End ClientSigned.

(** ** More on the driver *)

Section DriverEdges.
Import Runtime Client Index.

Variable JSON_parse : string -> string + Js.value.

Local Abbreviation item_run := (Index.item_run JSON_parse).
Local Abbreviation run_items := (Index.run_items JSON_parse).

(** An idle limiter grants no earlier than the call and, with an interval in
    the range of the timers and a latest admission that is not ahead of the
    clock, no earlier than an interval after the latest admission. *)
Lemma grant_time_bounds e w :
  clock w <= grant_time e w /\
  (RateLimiter.minIntervalMs (RateLimiter.fields (limiter w)) <= Js.TIMEOUT_MAX ->
   RateLimiter.lastRequestTime (RateLimiter.fields (limiter w)) <= clock w ->
   RateLimiter.lastRequestTime (RateLimiter.fields (limiter w))
   + RateLimiter.minIntervalMs (RateLimiter.fields (limiter w)) <= grant_time e w).
Proof.
  unfold grant_time, RateLimiter.waitTime, RateLimiter.sleep.
  pose proof (setTimeout_delay_positive
                (Z.max 0 (RateLimiter.minIntervalMs (RateLimiter.fields (limiter w))
                          - (clock w
                             - RateLimiter.lastRequestTime
                                 (RateLimiter.fields (limiter w)))))) as Hdelay.
  destruct (Z.ltb_spec 0
              (Z.max 0 (RateLimiter.minIntervalMs (RateLimiter.fields (limiter w))
                        - (clock w
                           - RateLimiter.lastRequestTime
                               (RateLimiter.fields (limiter w))))));
    (split; [lia|]); intros Hmax Hpast; [|lia].
  rewrite setTimeout_delay_in_range by lia. lia.
Qed.

(** The admissions of the batches, from a limiter of 1100 ms between two
    batches: they are spaced, and the run lasts an interval for each
    admission but the first. *)
Lemma run_items_paced batches : forall e w,
  idle (limiter w) ->
  RateLimiter.minIntervalMs (RateLimiter.fields (limiter w)) = 1100 ->
  RateLimiter.spaced 1100 (RateLimiter.admissions (limiter w)) ->
  RateLimiter.lastRequestTime (RateLimiter.fields (limiter w))
  = last (RateLimiter.admissions (limiter w)) 0 ->
  (RateLimiter.admissions (limiter w) <> [] ->
   last (RateLimiter.admissions (limiter w)) 0 <= clock w) ->
  exists a : nat,
    List.length (RateLimiter.admissions (limiter (snd (run_items batches e w))))
    = (List.length (RateLimiter.admissions (limiter w)) + a)%nat /\
    RateLimiter.spaced 1100
      (RateLimiter.admissions (limiter (snd (run_items batches e w)))) /\
    clock w <= clock (snd (run_items batches e w)) /\
    ((1 <= a)%nat -> RateLimiter.admissions (limiter w) <> [] ->
     last (RateLimiter.admissions (limiter w)) 0 + 1100 * Z.of_nat a
     <= clock (snd (run_items batches e w))) /\
    clock w + 1100 * (Z.of_nat a - 1) <= clock (snd (run_items batches e w)).
Proof.
  induction batches as [|batch rest IH]; intros e w Hidle Hmin Hspaced Hlast Hpast;
    cbn [Index.run_items].
  - exists 0%nat. cbn [snd]. rewrite Nat.add_0_r.
    split; [reflexivity|]. split; [exact Hspaced|]. split; [lia|]. split; lia.
  - destruct (item_run_limiter JSON_parse batch e w) as (Hadm & Hlrt & Hmin1 & Hclk & Hcase).
    destruct (grant_time_bounds e w) as (Hnow & Hgap).
    rewrite Hmin in Hgap, Hmin1. rewrite Hlast in Hgap.
    assert (Hgap' : RateLimiter.admissions (limiter w) <> [] ->
                    last (RateLimiter.admissions (limiter w)) 0 + 1100
                    <= grant_time e w).
    { intros Hne. apply Hgap; [unfold Js.TIMEOUT_MAX; lia | now apply Hpast]. }
    assert (Hspaced1 : RateLimiter.spaced 1100
                         (RateLimiter.admissions (limiter w) ++ [grant_time e w])).
    { apply spaced_snoc; [exact Hspaced|].
      destruct (RateLimiter.admissions (limiter w)) as [|t ts] eqn:E;
        [left; reflexivity|right]. apply Hgap'. discriminate. }
    destruct (Index.item_run JSON_parse batch e w) as [[c|] w1]; cbn [fst snd] in *.
    + destruct Hcase as (Hidle1 & _).
      assert (Hne1 : RateLimiter.admissions (limiter w1) <> [])
        by (rewrite Hadm; now destruct (RateLimiter.admissions (limiter w))).
      destruct (IH e w1 Hidle1 Hmin1) as (a & Hcount & Hsp & Hmono & Hfar & _).
      * now rewrite Hadm.
      * now rewrite Hadm, last_last.
      * intros _. rewrite Hadm, last_last. exact Hclk.
      * destruct (Index.run_items JSON_parse rest e w1) as [cs w2]. cbn [fst snd] in *.
        exists (S a). rewrite Hcount, Hadm, length_app. cbn [List.length].
        split; [lia|]. split; [exact Hsp|]. split; [lia|].
        rewrite Hadm, last_last in Hfar.
        destruct a as [|a'].
        -- split; [intros _ Hne; specialize (Hgap' Hne); lia|lia].
        -- rewrite Hadm in Hne1. specialize (Hfar ltac:(lia) Hne1).
           split; [intros _ Hne; specialize (Hgap' Hne); lia|lia].
    + exists 1%nat. rewrite Hadm, length_app. cbn [List.length].
      split; [reflexivity|]. split; [exact Hspaced1|]. split; [lia|].
      split; [intros _ Hne; specialize (Hgap' Hne); lia|lia].
Qed.

(** In a run of the loop of [main] the admissions that the limiter grants,
    one for each batch that reaches it, are at least 1100 ms apart, whatever
    the service answers and however long it takes; so the loop lasts at
    least 1100 ms for each admission but the first, and, when every request
    ends, at least [(n - 1) * 1100] ms for [n] batches. *)
Theorem main_loop_paced batches e startTime :
  let run := main_loop JSON_parse batches 0 [] [] e (Index.start startTime) in
  let admissions := RateLimiter.admissions (limiter (snd run)) in
  RateLimiter.spaced 1100 admissions /\
  startTime + 1100 * (Z.of_nat (List.length admissions) - 1) <= clock (snd run) /\
  ((forall k, respond e k <> NeverEnds) ->
   startTime + 1100 * (Z.of_nat (List.length batches) - 1) <= clock (snd run)).
Proof.
  intros run admissions. subst admissions run.
  assert (Hidle : idle (limiter (Index.start startTime))) by (repeat split).
  rewrite (main_loop_run JSON_parse batches 0 [] [] e _ Hidle). cbn [snd].
  destruct (run_items_paced batches e (Index.start startTime) Hidle eq_refl I eq_refl)
    as (a & Hcount & Hsp & _ & _ & Hlong); [intros Hne; now destruct Hne|].
  cbn [Index.start limiter RateLimiter.initial RateLimiter.admissions List.length
       Nat.add clock] in *.
  split; [exact Hsp|]. rewrite Hcount. split; [exact Hlong|].
  intros Hends.
  destruct (run_items_counts JSON_parse batches e (Index.start startTime) Hidle)
    as (Hadm & _).
  rewrite (run_items_all JSON_parse batches e (Index.start startTime) Hidle Hends)
    in Hadm.
  cbn [Index.start limiter RateLimiter.initial RateLimiter.admissions List.length
       Nat.add] in Hadm.
  lia.
Qed.

Lemma errors_of_positions cs : forall i batches,
  Forall (fun en => (i < Index.batch en <= i + List.length batches)%nat /\
                    nth_error batches (Index.batch en - 1 - i) = Some (devices en))
         (errors_of i batches cs) /\
  StronglySorted lt (map Index.batch (errors_of i batches cs)).
Proof.
  induction cs as [|c cs IH]; intros i [|batch rest]; cbn [errors_of];
    try (split; constructor).
  destruct (IH (S i) rest) as (Hpos & Hsorted).
  assert (Hlater :
    Forall (fun en => (i < Index.batch en <= i + List.length (batch :: rest))%nat /\
                      nth_error (batch :: rest) (Index.batch en - 1 - i)
                      = Some (devices en))
           (errors_of (S i) rest cs)).
  { eapply Forall_impl; [|exact Hpos]. intros en (Hrange & Hnth).
    cbn [List.length]. split; [lia|].
    replace (Index.batch en - 1 - i)%nat with (S (Index.batch en - 1 - S i)) by lia.
    exact Hnth. }
  destruct (log_of c) as [data|error|]; try (split; [exact Hlater | exact Hsorted]).
  split.
  - constructor; [|exact Hlater].
    cbn [failed_batch Index.batch devices List.length]. split; [lia|].
    replace (i + 1 - 1 - i)%nat with 0%nat by lia. reflexivity.
  - cbn [map failed_batch Index.batch]. constructor; [exact Hsorted|].
    apply Forall_map. eapply Forall_impl; [|exact Hpos].
    intros en (Hrange & _). lia.
Qed.

(** An entry of [errors] names its batch: [batch] is the position of the
    batch in [batches], counted from 1, and [devices] is that batch; the
    entries come in the order of the batches, so that no batch has two. The
    loop returns its [errors] when every request ends. *)
Theorem errors_name_batches batches e startTime :
  (forall results errors,
     fst (main_loop JSON_parse batches 0 [] [] e (Index.start startTime))
     = Some (results, errors) ->
     Forall (fun en => (1 <= Index.batch en <= List.length batches)%nat /\
                       nth_error batches (Index.batch en - 1) = Some (devices en))
            errors /\
     StronglySorted lt (map Index.batch errors)) /\
  ((forall k, respond e k <> NeverEnds) ->
   exists results errors,
     fst (main_loop JSON_parse batches 0 [] [] e (Index.start startTime))
     = Some (results, errors)).
Proof.
  assert (Hidle : idle (limiter (Index.start startTime))) by (repeat split).
  rewrite (main_loop_run JSON_parse batches 0 [] [] e _ Hidle). cbn [fst app].
  split.
  - intros results errors Hrun.
    destruct (List.length _ =? List.length batches)%nat; [|discriminate].
    injection Hrun as <- <-.
    destruct (errors_of_positions (fst (run_items batches e (Index.start startTime)))
                0 batches) as (Hpos & Hsorted).
    split; [|exact Hsorted].
    eapply Forall_impl; [|exact Hpos]. intros en (Hrange & Hnth).
    rewrite Nat.sub_0_r in Hnth. split; [lia | exact Hnth].
  - intros Hends.
    rewrite (run_items_all JSON_parse batches e (Index.start startTime) Hidle Hends),
      Nat.eqb_refl.
    do 2 eexists. reflexivity.
Qed.

Lemma item_run_ok batch e w v :
  settle JSON_parse (respond e (requests w)) = Some (inr v) ->
  fst (item_run batch e w) = Some (inr v) /\
  requests (snd (item_run batch e w)) = S (requests w) /\
  slept (trace (snd (item_run batch e w))) = slept (trace w).
Proof.
  intros Hok. unfold Index.item_run.
  rewrite queryDevicesWithRetry_body, queryDevices_run.
  change (requests (granted batch e w)) with (requests w). rewrite Hok.
  cbn [fst snd released requests trace granted].
  split; [reflexivity|]. split; [reflexivity|].
  unfold slept. rewrite !flat_map_app. cbn [flat_map app]. now rewrite !app_nil_r.
Qed.

Lemma run_items_ok (data : nat -> Js.value) batches : forall i e w,
  idle (limiter w) ->
  (forall k, option_map log_of (settle JSON_parse (respond e k))
             = Some (ToResults (data k))) ->
  List.length (fst (run_items batches e w)) = List.length batches /\
  results_of (fst (run_items batches e w))
  = map data (seq (requests w) (List.length batches)) /\
  errors_of i batches (fst (run_items batches e w)) = [] /\
  requests (snd (run_items batches e w)) = (requests w + List.length batches)%nat /\
  slept (trace (snd (run_items batches e w))) = slept (trace w).
Proof.
  induction batches as [|batch rest IH]; intros i e w Hidle Hok;
    cbn [Index.run_items].
  - cbn [fst snd results_of errors_of List.length seq map]. now rewrite Nat.add_0_r.
  - pose proof (item_run_idle JSON_parse batch e w) as Hidle1.
    pose proof (Hok (requests w)) as Hlog.
    destruct (settle JSON_parse (respond e (requests w))) as [[error|v]|] eqn:Hsettle;
      [discriminate Hlog| |discriminate Hlog].
    cbn [option_map] in Hlog. injection Hlog as Hlog.
    destruct (item_run_ok batch e w v Hsettle) as (Hfst & Hreq & Hslept).
    destruct (Index.item_run JSON_parse batch e w) as [[c|] w1]; cbn [fst snd] in *;
      [|discriminate Hfst].
    injection Hfst as ->. specialize (Hidle1 _ eq_refl).
    destruct (IH (S i) e w1 Hidle1 Hok) as (Hlen & Hres & Herr & Hreqs & Hsl).
    destruct (Index.run_items JSON_parse rest e w1) as [cs w2]. cbn [fst snd] in *.
    change (log_of (inr v) = ToResults (data (requests w))) in Hlog.
    cbn [results_of errors_of List.length seq map]. rewrite Hlog.
    rewrite Hres, Herr, Hreqs, Hsl, Hreq, Hslept, Hlen.
    repeat split; lia.
Qed.

(** When every request is answered 200 with a body that parses to a
    response with a truthy [data], the loop of [main] sends one request for
    each batch and none more, never sleeps for a retry, records no error, and
    [results] holds the [data] of the responses in the order of the
    batches. *)
Theorem all_batches_succeed batches e startTime (data : nat -> Js.value) :
  (forall k, option_map log_of (settle JSON_parse (respond e k))
             = Some (ToResults (data k))) ->
  let run := main_loop JSON_parse batches 0 [] [] e (Index.start startTime) in
  fst run = Some (map data (seq 0 (List.length batches)), []) /\
  requests (snd run) = List.length batches /\
  slept (trace (snd run)) = [].
Proof.
  intros Hok run. subst run.
  assert (Hidle : idle (limiter (Index.start startTime))) by (repeat split).
  rewrite (main_loop_run JSON_parse batches 0 [] [] e _ Hidle). cbn [fst snd app].
  destruct (run_items_ok data batches 0 e (Index.start startTime) Hidle Hok)
    as (Hlen & Hres & Herr & Hreqs & Hsl).
  rewrite Hlen, Nat.eqb_refl, Hres, Herr, Hreqs, Hsl. repeat split.
Qed.

(** A 200 whose body is the JSON [null] resolves the promise of
    [queryDevices] with [null]: nothing is retried, reading [response.data]
    throws inside the [try], and the batch is recorded in [errors] with the
    message of that [TypeError]. *)
Theorem null_response_recorded batch rest i results errors e w :
  idle (limiter w) ->
  settle JSON_parse (respond e (requests w)) = Some (inr Js.JNull) ->
  requests (snd (item_run batch e w)) = S (requests w) /\
  main_loop JSON_parse (batch :: rest) i results errors e w =
  main_loop JSON_parse rest (S i) results
    (errors ++ [{| Index.batch := i + 1; devices := batch;
                   error := inl "Cannot read properties of null (reading 'data')"%string |}])
    e (snd (item_run batch e w)).
Proof.
  intros Hidle Hnull.
  destruct (item_run_ok batch e w Js.JNull Hnull) as (Hfst & Hreq & _).
  split; [exact Hreq|].
  rewrite (main_loop_step JSON_parse batch rest i results errors e w Hidle).
  rewrite Hfst. reflexivity.
Qed.


End DriverEdges.

(** No retry on a service that always answers with data. *)
Lemma all_batches_succeed_witness :
  fst (Index.main_loop Scenario.JSON_parse [["SN-000"]; ["SN-001"]] 0 [] []
         Scenario.always_ok (Index.start Scenario.T0))
  = Some ([Js.JArr []; Js.JArr []], []) /\
  Runtime.requests
    (snd (Index.main_loop Scenario.JSON_parse [["SN-000"]; ["SN-001"]] 0 [] []
            Scenario.always_ok (Index.start Scenario.T0))) = 2%nat.
Proof.
  destruct (all_batches_succeed Scenario.JSON_parse [["SN-000"]; ["SN-001"]]
              Scenario.always_ok Scenario.T0 (fun _ => Js.JArr [])
              (fun k => eq_refl)) as (Hres & Hreqs & _).
  split; [exact Hres | exact Hreqs].
Defined.

(** A batch answered with the body [null]. *)
Lemma null_response_recorded_witness :
  Index.main_loop Scenario.JSON_parse [["SN-000"]] 0 [] []
    Scenario.always_null (Index.start Scenario.T0)
  = Index.main_loop Scenario.JSON_parse [] 1 []
      [{| Index.batch := 1; Index.devices := ["SN-000"];
          Index.error := inl "Cannot read properties of null (reading 'data')"%string |}]
      Scenario.always_null
      (snd (Index.item_run Scenario.JSON_parse ["SN-000"] Scenario.always_null
              (Index.start Scenario.T0))).
Proof.
  apply (null_response_recorded Scenario.JSON_parse ["SN-000"] [] 0 [] []
           Scenario.always_null (Index.start Scenario.T0)).
  - split; [reflexivity|]. split; reflexivity.
  - reflexivity.
Defined.
